(** * gvfs: the inotify helper and the socket input stream

    A shallow embedding of [gio/inotify/inotify-helper.c] and of
    [gio/gsocketinputstream.c], with the properties their design
    description states about them.

    Integers of the C code are [Z]; [guint32] masks are combined with
    [Z.land], [Z.lor] and [Z.lnot].  Objects that live behind pointers
    (subscriptions) are kept in a finite map from addresses; the sets the
    neighbouring modules maintain are finite sets of addresses.  Calls
    that leave the translation unit are recorded, in program order, in a
    trace. *)

From Stdlib Require Import ZArith Lia.
From stdpp Require Import base option list gmap strings.

Local Open Scope Z_scope.

(** ** The inotify helper *)

Module InotifyHelper.

(** *** Constants of [local_inotify.h]

    The header is not part of the sources at hand, so the event bits are
    taken as a parameter.  [ih_mask_to_EventFlags] uses them as the labels
    of one [switch], and [IN_ISDIR] as the bit it clears first. *)

Record inotify_abi : Type := {
  IN_ACCESS : Z;
  IN_MODIFY : Z;
  IN_ATTRIB : Z;
  IN_CLOSE_WRITE : Z;
  IN_CLOSE_NOWRITE : Z;
  IN_OPEN : Z;
  IN_MOVED_FROM : Z;
  IN_MOVED_TO : Z;
  IN_CREATE : Z;
  IN_DELETE : Z;
  IN_DELETE_SELF : Z;
  IN_MOVE_SELF : Z;
  IN_UNMOUNT : Z;
  IN_Q_OVERFLOW : Z;
  IN_IGNORED : Z;
  IN_ISDIR : Z
}.

(** The labels of the [switch], in the order the source lists them. *)
Definition case_labels (abi : inotify_abi) : list Z :=
  [ IN_MODIFY abi; IN_ATTRIB abi;
    IN_MOVE_SELF abi; IN_MOVED_FROM abi; IN_DELETE abi; IN_DELETE_SELF abi;
    IN_CREATE abi; IN_MOVED_TO abi;
    IN_UNMOUNT abi;
    IN_Q_OVERFLOW abi; IN_OPEN abi; IN_CLOSE_WRITE abi;
    IN_CLOSE_NOWRITE abi; IN_ACCESS abi; IN_IGNORED abi ].

(** What a header must satisfy for the file to compile and for the
    [switch] to be reachable: the labels are pairwise distinct (a C
    compiler rejects duplicate labels), every label is a [guint32] that
    does not contain the directory bit, and the directory bit is a
    non-zero [guint32]. *)
Definition abi_wf (abi : inotify_abi) : Prop :=
  NoDup (case_labels abi)
  ∧ Forall (λ c, 0 ≤ c < 2 ^ 32 ∧ Z.land c (IN_ISDIR abi) = 0) (case_labels abi)
  ∧ 0 < IN_ISDIR abi < 2 ^ 32.

(** The values of the Linux kernel interface, the ones the local header
    copies. *)
Definition linux_inotify : inotify_abi := {|
  IN_ACCESS := 0x00000001;
  IN_MODIFY := 0x00000002;
  IN_ATTRIB := 0x00000004;
  IN_CLOSE_WRITE := 0x00000008;
  IN_CLOSE_NOWRITE := 0x00000010;
  IN_OPEN := 0x00000020;
  IN_MOVED_FROM := 0x00000040;
  IN_MOVED_TO := 0x00000080;
  IN_CREATE := 0x00000100;
  IN_DELETE := 0x00000200;
  IN_DELETE_SELF := 0x00000400;
  IN_MOVE_SELF := 0x00000800;
  IN_UNMOUNT := 0x00002000;
  IN_Q_OVERFLOW := 0x00004000;
  IN_IGNORED := 0x00008000;
  IN_ISDIR := 0x40000000
|}.

(** *** Events given to the monitors

    [GDirectoryMonitorEvent] is an enumeration.  The [default] arm of
    [ih_mask_to_EventFlags] returns [-1] converted to that type, which is
    none of the enumerators: it gets a constructor of its own. *)
Inductive GDirectoryMonitorEvent : Type :=
| G_DIRECTORY_MONITOR_EVENT_CHANGED
| G_DIRECTORY_MONITOR_EVENT_ATTRIBUTE_CHANGED
| G_DIRECTORY_MONITOR_EVENT_DELETED
| G_DIRECTORY_MONITOR_EVENT_CREATED
| G_DIRECTORY_MONITOR_EVENT_UNMOUNTED
| G_DIRECTORY_MONITOR_EVENT_minus_one.

(** [ik_event_t], as far as this file reads it. *)
Record ik_event_t : Type := {
  mask : Z;
  name : option string
}.

(** An instance behind the [gpointer user_data] of a subscription:
    its address and what the two run-time type checks answer for it. *)
Record gpointer : Type := {
  address : positive;
  G_IS_DIRECTORY_MONITOR : bool;
  G_IS_FILE_MONITOR : bool
}.

(** [inotify_sub], as far as this file reads and writes it. *)
Record inotify_sub : Type := {
  dirname : string;
  filename : option string;
  cancelled : bool;
  user_data : gpointer
}.

(** A [GFile] is identified by the path it was made for. *)
Record GFile : Type := g_file_new_for_path { g_file_path : string }.

(** Addresses of subscriptions. *)
Abbreviation sub_ptr := positive (only parsing).

(** Everything the two functions of this file do towards the outside,
    as entries of a trace. *)
Inductive effect : Type :=
| g_directory_monitor_emit_event
    (monitor : gpointer) (child : GFile) (other_file : option GFile)
    (event_type : GDirectoryMonitorEvent)
| g_file_monitor_emit_event
    (monitor : gpointer) (child : GFile) (other_file : option GFile)
    (event_type : GDirectoryMonitorEvent)
| g_warning (message : string)
| call_ip_startup
| call_im_startup
| call_id_startup
| call_ip_start_watching (sub : sub_ptr)
| call_im_add (sub : sub_ptr)
| call_im_rm (sub : sub_ptr)
| call_ip_stop_watching (sub : sub_ptr)
| store_cancelled (sub : sub_ptr) (value : bool).

(** The entries that deliver an event to a monitor. *)
Definition is_emission (e : effect) : bool :=
  match e with
  | g_directory_monitor_emit_event _ _ _ _ => true
  | g_file_monitor_emit_event _ _ _ _ => true
  | _ => false
  end.

Definition emissions (t : list effect) : list effect :=
  List.filter is_emission t.

(** The character the format strings write as backslash-n. *)
Definition newline : string :=
  String (Ascii.Ascii false true false true false false false false)
         EmptyString.

(** *** [ih_mask_to_EventFlags] *)

Section EventTranslator.

Variable abi : inotify_abi.

(** The [switch] compares the stripped mask with each label; the arms
    are tried in source order. *)
Definition ih_mask_to_EventFlags (mask : Z) : GDirectoryMonitorEvent :=
  let mask := Z.land mask (Z.lnot (IN_ISDIR abi)) in
  if mask =? IN_MODIFY abi then G_DIRECTORY_MONITOR_EVENT_CHANGED
  else if mask =? IN_ATTRIB abi then G_DIRECTORY_MONITOR_EVENT_ATTRIBUTE_CHANGED
  else if (mask =? IN_MOVE_SELF abi) || (mask =? IN_MOVED_FROM abi)
          || (mask =? IN_DELETE abi) || (mask =? IN_DELETE_SELF abi)
       then G_DIRECTORY_MONITOR_EVENT_DELETED
  else if (mask =? IN_CREATE abi) || (mask =? IN_MOVED_TO abi)
       then G_DIRECTORY_MONITOR_EVENT_CREATED
  else if mask =? IN_UNMOUNT abi then G_DIRECTORY_MONITOR_EVENT_UNMOUNTED
  else if (mask =? IN_Q_OVERFLOW abi) || (mask =? IN_OPEN abi)
          || (mask =? IN_CLOSE_WRITE abi) || (mask =? IN_CLOSE_NOWRITE abi)
          || (mask =? IN_ACCESS abi) || (mask =? IN_IGNORED abi)
       then G_DIRECTORY_MONITOR_EVENT_minus_one
  else G_DIRECTORY_MONITOR_EVENT_minus_one.

(** *** [ih_event_callback]

    The two [g_object_unref] and the [g_free] have no effect outside the
    function; [parent] is made and dropped without being used. *)
Definition ih_event_callback (event : ik_event_t) (sub : inotify_sub)
  : list effect :=
  let eflags := ih_mask_to_EventFlags (mask event) in
  let fullpath :=
    match name event with
    | Some n => dirname sub +:+ "/" +:+ n
    | None => dirname sub +:+ "/"
    end in
  let child := g_file_new_for_path fullpath in
  if G_IS_DIRECTORY_MONITOR (user_data sub) then
    [ g_directory_monitor_emit_event (user_data sub) child None eflags ]
  else if G_IS_FILE_MONITOR (user_data sub) then
    [ g_file_monitor_emit_event (user_data sub) child None eflags ]
  else [].

(** *** [ih_not_missing_callback]

    [g_file_test (fullpath, G_FILE_TEST_EXISTS)] asks the file system,
    which is a parameter here. *)
Variable g_file_test_exists : string → bool.

(** The local variable [mask], as the two branches on [sub->filename]
    assign it. *)
Definition ih_not_missing_mask (sub : inotify_sub) : Z :=
  match filename sub with
  | Some _ => IN_CREATE abi
  | None => Z.lor (IN_CREATE abi) (IN_ISDIR abi)
  end.

Definition ih_not_missing_callback (sub : inotify_sub) : list effect :=
  let dispatch (fullpath : string) (mask : Z) : list effect :=
    let eflags := ih_mask_to_EventFlags mask in
    let child := g_file_new_for_path fullpath in
    if G_IS_DIRECTORY_MONITOR (user_data sub) then
      [ g_directory_monitor_emit_event (user_data sub) child None eflags ]
    else if G_IS_FILE_MONITOR (user_data sub) then
      [ g_file_monitor_emit_event (user_data sub) child None eflags ]
    else [] in
  match filename sub with
  | Some f =>
      let fullpath := dirname sub +:+ "/" +:+ f in
      g_warning ("Missing callback called fullpath = " +:+ fullpath +:+ newline)
      :: (if negb (g_file_test_exists fullpath) then []
          else dispatch fullpath (ih_not_missing_mask sub))
  | None =>
      let fullpath := dirname sub in
      dispatch fullpath (ih_not_missing_mask sub)
  end.

End EventTranslator.

(** *** The state the public functions work on

    [inotify_lock] is the lock this file defines and shares with the
    kernel and missing-path modules; [initialized] and [result] are the
    two [static] locals of [_ih_startup].  [subs] holds the subscriptions
    by address.  [ip_watched] and [im_missing] are the sets kept by
    [inotify-path.c] and [inotify-missing.c]. *)
Record ih_state : Type := {
  inotify_lock : bool;
  initialized : bool;
  result : bool;
  subs : gmap positive inotify_sub;
  ip_watched : gset positive;
  im_missing : gset positive;
  trace : list effect
}.

(** The state of a process before the first call. *)
Definition ih_initial_state : ih_state := {|
  inotify_lock := false;
  initialized := false;
  result := false;
  subs := ∅;
  ip_watched := ∅;
  im_missing := ∅;
  trace := []
|}.

(** A computation reads and changes the state; [None] is a computation
    that does not continue: waiting for a lock that is never released, or
    following a pointer to no subscription. *)
Definition M (A : Type) : Type := ih_state → option (A * ih_state).

Definition ret {A : Type} (a : A) : M A := λ st, Some (a, st).

Definition bind {A B : Type} (m : M A) (k : A → M B) : M B :=
  λ st, match m st with
        | Some (a, st') => k a st'
        | None => None
        end.

Declare Scope ih_scope.
Delimit Scope ih_scope with ih.
Notation "'let*' x := m 'in' k" := (bind m (λ x, k))
  (at level 10, x name, m at level 100, k at level 200) : ih_scope.
Notation "m ;; k" := (bind m (λ _, k))
  (at level 100, k at level 200, right associativity) : ih_scope.

Local Open Scope ih_scope.

Definition emit (e : effect) : M unit :=
  λ st, Some (tt, {| inotify_lock := inotify_lock st;
                     initialized := initialized st;
                     result := result st;
                     subs := subs st;
                     ip_watched := ip_watched st;
                     im_missing := im_missing st;
                     trace := trace st ++ [e] |}).

(** [G_LOCK] on a lock that is held does not return in a run with one
    thread. *)
Definition G_LOCK : M unit :=
  λ st, if inotify_lock st then None
        else Some (tt, {| inotify_lock := true;
                          initialized := initialized st;
                          result := result st;
                          subs := subs st;
                          ip_watched := ip_watched st;
                          im_missing := im_missing st;
                          trace := trace st |}).

Definition G_UNLOCK : M unit :=
  λ st, Some (tt, {| inotify_lock := false;
                     initialized := initialized st;
                     result := result st;
                     subs := subs st;
                     ip_watched := ip_watched st;
                     im_missing := im_missing st;
                     trace := trace st |}).

Definition get_initialized : M bool := λ st, Some (initialized st, st).
Definition get_result : M bool := λ st, Some (result st, st).

Definition set_initialized (b : bool) : M unit :=
  λ st, Some (tt, {| inotify_lock := inotify_lock st;
                     initialized := b;
                     result := result st;
                     subs := subs st;
                     ip_watched := ip_watched st;
                     im_missing := im_missing st;
                     trace := trace st |}).

Definition set_result (b : bool) : M unit :=
  λ st, Some (tt, {| inotify_lock := inotify_lock st;
                     initialized := initialized st;
                     result := b;
                     subs := subs st;
                     ip_watched := ip_watched st;
                     im_missing := im_missing st;
                     trace := trace st |}).

(** [sub->dirname], read. *)
Definition get_dirname (sub : sub_ptr) : M string :=
  λ st, match subs st !! sub with
        | Some s => Some (dirname s, st)
        | None => None
        end.

(** [sub->cancelled], read. *)
Definition get_cancelled (sub : sub_ptr) : M bool :=
  λ st, match subs st !! sub with
        | Some s => Some (cancelled s, st)
        | None => None
        end.

(** [sub->cancelled = b]. *)
Definition set_cancelled (sub : sub_ptr) (b : bool) : M unit :=
  λ st, match subs st !! sub with
        | Some s =>
            Some (tt, {| inotify_lock := inotify_lock st;
                         initialized := initialized st;
                         result := result st;
                         subs := <[sub := {| dirname := dirname s;
                                             filename := filename s;
                                             cancelled := b;
                                             user_data := user_data s |}]>
                                   (subs st);
                         ip_watched := ip_watched st;
                         im_missing := im_missing st;
                         trace := trace st ++ [store_cancelled sub b] |})
        | None => None
        end.

(** [ih_debug_enabled] is [FALSE] and nothing in the file assigns it. *)
Definition ih_debug_enabled : bool := false.

(** The macro [IH_W]: its arguments are evaluated only when the flag is
    set. *)
Definition IH_W (message : M string) : M unit :=
  if ih_debug_enabled then
    let* m := message in
    emit (g_warning m)
  else ret tt.

(** *** The neighbouring modules *)

(** Modelled from the spec: [_ip_startup] of [inotify-path.c] is not in
    the sources at hand.  It initializes the Kernel Watch Adapter and
    reports success or failure; whether it succeeds is the environment's
    answer [ok]. *)
Definition _ip_startup (ok : bool) : M bool :=
  emit call_ip_startup ;; ret ok.

(** Modelled from the spec: [_im_startup] of [inotify-missing.c], which
    initializes the Missing-Path Tracker. *)
Definition _im_startup : M unit := emit call_im_startup.

(** Modelled from the spec: [_id_startup] of [inotify-diag.c], which
    initializes the diagnostics collaborator. *)
Definition _id_startup : M unit := emit call_id_startup.

(** Modelled from the spec: [_ip_start_watching] of [inotify-path.c].
    Given a subscription it attempts to start a live kernel watch and
    reports success or failure; on success the subscription is in the
    kernel-watch set.  Whether the kernel accepts the watch is the
    environment's answer [ok]. *)
Definition _ip_start_watching (ok : bool) (sub : sub_ptr) : M bool :=
  emit (call_ip_start_watching sub) ;;
  if ok then
    λ st, Some (true, {| inotify_lock := inotify_lock st;
                         initialized := initialized st;
                         result := result st;
                         subs := subs st;
                         ip_watched := {[sub]} ∪ ip_watched st;
                         im_missing := im_missing st;
                         trace := trace st |})
  else ret false.

(** Modelled from the spec: [_im_add] of [inotify-missing.c], which
    registers the subscription with the Missing-Path Tracker. *)
Definition _im_add (sub : sub_ptr) : M unit :=
  emit (call_im_add sub) ;;
  λ st, Some (tt, {| inotify_lock := inotify_lock st;
                     initialized := initialized st;
                     result := result st;
                     subs := subs st;
                     ip_watched := ip_watched st;
                     im_missing := {[sub]} ∪ im_missing st;
                     trace := trace st |}).

(** Modelled from the spec: [_im_rm] of [inotify-missing.c], which removes
    the subscription from the Missing-Path Tracker. *)
Definition _im_rm (sub : sub_ptr) : M unit :=
  emit (call_im_rm sub) ;;
  λ st, Some (tt, {| inotify_lock := inotify_lock st;
                     initialized := initialized st;
                     result := result st;
                     subs := subs st;
                     ip_watched := ip_watched st;
                     im_missing := im_missing st ∖ {[sub]};
                     trace := trace st |}).

(** Modelled from the spec: [_ip_stop_watching] of [inotify-path.c], which
    removes the subscription from the Kernel Watch Adapter. *)
Definition _ip_stop_watching (sub : sub_ptr) : M bool :=
  emit (call_ip_stop_watching sub) ;;
  λ st, Some (true, {| inotify_lock := inotify_lock st;
                       initialized := initialized st;
                       result := result st;
                       subs := subs st;
                       ip_watched := ip_watched st ∖ {[sub]};
                       im_missing := im_missing st;
                       trace := trace st |}).

(** *** [_ih_startup] *)
Definition _ih_startup (ip_ok : bool) : M bool :=
  G_LOCK ;;
  let* i := get_initialized in
  if i then
    G_UNLOCK ;;
    get_result
  else
    let* r := _ip_startup ip_ok in
    set_result r ;;
    if negb r then
      emit (g_warning ("Could not initialize inotify" +:+ newline)) ;;
      G_UNLOCK ;;
      ret false
    else
      _im_startup ;;
      _id_startup ;;
      IH_W (ret ("started gvfs inotify backend" +:+ newline)) ;;
      set_initialized true ;;
      G_UNLOCK ;;
      ret true.

(** *** [_ih_sub_add] *)
Definition _ih_sub_add (watch_ok : bool) (sub : sub_ptr) : M bool :=
  G_LOCK ;;
  let* started := _ip_start_watching watch_ok sub in
  (if negb started then _im_add sub else ret tt) ;;
  G_UNLOCK ;;
  ret true.

(** *** [_ih_sub_cancel] *)
Definition _ih_sub_cancel (sub : sub_ptr) : M bool :=
  G_LOCK ;;
  let* c := get_cancelled sub in
  (if negb c then
     IH_W (let* d := get_dirname sub in
           ret ("cancelling " +:+ d +:+ newline)) ;;
     set_cancelled sub true ;;
     _im_rm sub ;;
     _ip_stop_watching sub ;;
     ret tt
   else ret tt) ;;
  G_UNLOCK ;;
  ret true.

(** *** Runs of the public functions *)

(** One call of [_ih_startup] per answer of [_ip_startup], one after the
    other: the returned values in order and the state at the end. *)
Fixpoint run_startups (answers : list bool) : M (list bool) :=
  match answers with
  | [] => ret []
  | ip_ok :: rest =>
      let* r := _ih_startup ip_ok in
      let* rs := run_startups rest in
      ret (r :: rs)
  end.

(** A call of one of the three public functions. *)
Inductive call : Type :=
| startup (ip_ok : bool)
| sub_add (watch_ok : bool) (sub : sub_ptr)
| sub_cancel (sub : sub_ptr).

Definition run_call (c : call) : M bool :=
  match c with
  | startup ip_ok => _ih_startup ip_ok
  | sub_add watch_ok sub => _ih_sub_add watch_ok sub
  | sub_cancel sub => _ih_sub_cancel sub
  end.

Fixpoint run_calls (cs : list call) : M unit :=
  match cs with
  | [] => ret tt
  | c :: rest => run_call c ;; run_calls rest
  end.

(** How often a trace has an entry that [p] accepts. *)
Definition count_effects (p : effect → bool) (t : list effect) : nat :=
  length (List.filter p t).

Definition is_warning (e : effect) : bool :=
  match e with g_warning _ => true | _ => false end.
Definition is_ip_startup (e : effect) : bool :=
  match e with call_ip_startup => true | _ => false end.
Definition is_im_startup (e : effect) : bool :=
  match e with call_im_startup => true | _ => false end.
Definition is_id_startup (e : effect) : bool :=
  match e with call_id_startup => true | _ => false end.

(** The calls that fail before the first one that succeeds. *)
Fixpoint failures_before_success (answers : list bool) : nat :=
  match answers with
  | false :: rest => S (failures_before_success rest)
  | _ => 0%nat
  end.

(** What a run of [_ih_startup] calls leaves in the trace, when it starts
    with nothing initialized: every call that finds [_ip_startup] failing
    calls it and warns; the first call that finds it succeeding calls the
    three initializers; the calls after that one leave nothing. *)
Fixpoint startup_trace (answers : list bool) : list effect :=
  match answers with
  | [] => []
  | false :: rest =>
      call_ip_startup
      :: g_warning ("Could not initialize inotify" +:+ newline)
      :: startup_trace rest
  | true :: _ => [call_ip_startup; call_im_startup; call_id_startup]
  end.

(** One if some call of the run finds [_ip_startup] succeeding. *)
Definition succeeded_once (answers : list bool) : nat :=
  if existsb id answers then 1%nat else 0%nat.

(** *** The design description, in its own words *)

(** The table of the mask-to-domain-event mapping, row by row. *)
Definition spec_mapping_table (abi : inotify_abi)
  : list (Z * GDirectoryMonitorEvent) :=
  [ (IN_MODIFY abi, G_DIRECTORY_MONITOR_EVENT_CHANGED);
    (IN_ATTRIB abi, G_DIRECTORY_MONITOR_EVENT_ATTRIBUTE_CHANGED);
    (IN_MOVE_SELF abi, G_DIRECTORY_MONITOR_EVENT_DELETED);
    (IN_MOVED_FROM abi, G_DIRECTORY_MONITOR_EVENT_DELETED);
    (IN_DELETE abi, G_DIRECTORY_MONITOR_EVENT_DELETED);
    (IN_DELETE_SELF abi, G_DIRECTORY_MONITOR_EVENT_DELETED);
    (IN_CREATE abi, G_DIRECTORY_MONITOR_EVENT_CREATED);
    (IN_MOVED_TO abi, G_DIRECTORY_MONITOR_EVENT_CREATED);
    (IN_UNMOUNT abi, G_DIRECTORY_MONITOR_EVENT_UNMOUNTED);
    (IN_Q_OVERFLOW abi, G_DIRECTORY_MONITOR_EVENT_minus_one);
    (IN_OPEN abi, G_DIRECTORY_MONITOR_EVENT_minus_one);
    (IN_CLOSE_WRITE abi, G_DIRECTORY_MONITOR_EVENT_minus_one);
    (IN_CLOSE_NOWRITE abi, G_DIRECTORY_MONITOR_EVENT_minus_one);
    (IN_ACCESS abi, G_DIRECTORY_MONITOR_EVENT_minus_one);
    (IN_IGNORED abi, G_DIRECTORY_MONITOR_EVENT_minus_one) ].

(** A mask of the table as the kernel sends it: with or without the
    directory flag. *)
Definition with_isdir (abi : inotify_abi) (is_dir : bool) (c : Z) : Z :=
  if is_dir then Z.lor c (IN_ISDIR abi) else c.

(** The dispatch to exactly one of the two kinds of target: a directory
    monitor is served through the directory-monitor entry point, a file
    monitor through the file-monitor entry point. *)
Definition spec_dispatch (target : gpointer) (child : GFile)
    (event_type : GDirectoryMonitorEvent) : list effect :=
  if G_IS_DIRECTORY_MONITOR target then
    [ g_directory_monitor_emit_event target child None event_type ]
  else if G_IS_FILE_MONITOR target then
    [ g_file_monitor_emit_event target child None event_type ]
  else [].


(** The subscription at [p] is cancelled. *)
Definition is_cancelled (st : ih_state) (p : sub_ptr) : Prop :=
  ∃ s, subs st !! p = Some s ∧ cancelled s = true.

(** *** Inputs the statements below are tried on *)

Definition directory_monitor_1 : gpointer :=
  {| address := 1; G_IS_DIRECTORY_MONITOR := true; G_IS_FILE_MONITOR := false |}.

Definition file_monitor_2 : gpointer :=
  {| address := 2; G_IS_DIRECTORY_MONITOR := false; G_IS_FILE_MONITOR := true |}.

Definition other_object_3 : gpointer :=
  {| address := 3; G_IS_DIRECTORY_MONITOR := false; G_IS_FILE_MONITOR := false |}.

Definition sub_tmp_watchdir : inotify_sub :=
  {| dirname := "/tmp/watchdir"; filename := None; cancelled := false;
     user_data := directory_monitor_1 |}.

Definition sub_tmp_notes : inotify_sub :=
  {| dirname := "/tmp"; filename := Some "notes.txt"; cancelled := false;
     user_data := file_monitor_2 |}.

Definition sub_other_target : inotify_sub :=
  {| dirname := "/tmp"; filename := Some "notes.txt"; cancelled := false;
     user_data := other_object_3 |}.

Definition open_event : ik_event_t :=
  {| mask := IN_OPEN linux_inotify; name := Some "notes.txt" |}.

(** A registry with the subscription [sub_tmp_watchdir] at address 7,
    watched by the kernel. *)
Definition state_watching_7 : ih_state :=
  {| inotify_lock := false; initialized := true; result := true;
     subs := {[ 7%positive := sub_tmp_watchdir ]};
     ip_watched := {[ 7%positive ]};
     im_missing := ∅;
     trace := [] |}.

(** *** More inputs and notions for the statements below *)

(** A subscription with its [cancelled] field set to [b]. *)
Definition with_cancelled (b : bool) (s : inotify_sub) : inotify_sub :=
  {| dirname := dirname s; filename := filename s; cancelled := b;
     user_data := user_data s |}.

(** The path of the file an emission is about, and the monitor it is
    handed to. *)
Definition emitted_path (e : effect) : option string :=
  match e with
  | g_directory_monitor_emit_event _ child _ _ => Some (g_file_path child)
  | g_file_monitor_emit_event _ child _ _ => Some (g_file_path child)
  | _ => None
  end.

Definition emitted_monitor (e : effect) : option gpointer :=
  match e with
  | g_directory_monitor_emit_event monitor _ _ _ => Some monitor
  | g_file_monitor_emit_event monitor _ _ _ => Some monitor
  | _ => None
  end.

Definition emitted_other_file (e : effect) : option (option GFile) :=
  match e with
  | g_directory_monitor_emit_event _ _ other _ => Some other
  | g_file_monitor_emit_event _ _ other _ => Some other
  | _ => None
  end.

(** The entries of a trace that belong to the start-up: the three
    initializers and the warning. *)
Definition is_startup_effect (e : effect) : bool :=
  is_ip_startup e || is_im_startup e || is_id_startup e || is_warning e.

(** An object for which both run-time type checks answer yes. *)
Definition both_monitors_4 : gpointer :=
  {| address := 4; G_IS_DIRECTORY_MONITOR := true; G_IS_FILE_MONITOR := true |}.

(** The states the public functions leave behind, by the path taken. *)
Definition after_startup (ip_ok : bool) (st : ih_state) : ih_state :=
  if initialized st then st
  else if ip_ok then
    {| inotify_lock := false; initialized := true; result := true;
       subs := subs st; ip_watched := ip_watched st;
       im_missing := im_missing st;
       trace := trace st ++ [call_ip_startup; call_im_startup;
                             call_id_startup] |}
  else
    {| inotify_lock := false; initialized := false; result := false;
       subs := subs st; ip_watched := ip_watched st;
       im_missing := im_missing st;
       trace := trace st
                ++ [call_ip_startup;
                    g_warning ("Could not initialize inotify" +:+ newline)] |}.

Definition after_add (watch_ok : bool) (sub : sub_ptr) (st : ih_state)
  : ih_state :=
  if watch_ok then
    {| inotify_lock := false; initialized := initialized st;
       result := result st; subs := subs st;
       ip_watched := {[sub]} ∪ ip_watched st;
       im_missing := im_missing st;
       trace := trace st ++ [call_ip_start_watching sub] |}
  else
    {| inotify_lock := false; initialized := initialized st;
       result := result st; subs := subs st;
       ip_watched := ip_watched st;
       im_missing := {[sub]} ∪ im_missing st;
       trace := trace st ++ [call_ip_start_watching sub; call_im_add sub] |}.

Definition after_cancel (sub : sub_ptr) (s : inotify_sub) (st : ih_state)
  : ih_state :=
  if cancelled s then st
  else
    {| inotify_lock := false; initialized := initialized st;
       result := result st;
       subs := <[sub := with_cancelled true s]> (subs st);
       ip_watched := ip_watched st ∖ {[sub]};
       im_missing := im_missing st ∖ {[sub]};
       trace := trace st ++ [store_cancelled sub true; call_im_rm sub;
                             call_ip_stop_watching sub] |}.

(** The registry after a start-up that failed and the addition of a
    subscription, at address 7, that the kernel could not watch. *)
Definition state_missing_7 : ih_state :=
  {| inotify_lock := false; initialized := false; result := false;
     subs := ∅; ip_watched := ∅;
     im_missing := {[7%positive]} ∪ ∅;
     trace := [call_ip_startup;
               g_warning ("Could not initialize inotify" +:+ newline);
               call_ip_start_watching 7%positive;
               call_im_add 7%positive] |}.

(** The state of a process before the first call, with the subscription
    records its callers hold: nothing is initialized and nothing is
    registered. *)
Definition ih_process_start (subscriptions : gmap positive inotify_sub)
  : ih_state :=
  {| inotify_lock := false; initialized := false; result := false;
     subs := subscriptions; ip_watched := ∅; im_missing := ∅;
     trace := [] |}.



(** The registry after a start-up that failed, the addition and the
    cancellation of the subscription at address 7, and a start-up that
    succeeded. *)
Definition state_cancelled_7 : ih_state :=
  {| inotify_lock := false; initialized := true; result := true;
     subs := <[ 7%positive := with_cancelled true sub_tmp_watchdir ]>
               {[ 7%positive := sub_tmp_watchdir ]};
     ip_watched := ({[7%positive]} ∪ ∅) ∖ {[7%positive]};
     im_missing := ∅ ∖ {[7%positive]};
     trace := [call_ip_startup;
               g_warning ("Could not initialize inotify" +:+ newline);
               call_ip_start_watching 7%positive;
               store_cancelled 7%positive true;
               call_im_rm 7%positive;
               call_ip_stop_watching 7%positive;
               call_ip_startup; call_im_startup; call_id_startup] |}.

End InotifyHelper.

(** ** The socket input stream *)

Module SocketInputStream.

(** [struct _GSocketInputStreamPrivate]. *)
Record GSocketInputStreamPrivate : Type := {
  fd : Z;
  close_fd_at_close : bool
}.

(** [g_socket_input_stream_new]. *)
Definition g_socket_input_stream_new (fd : Z) (close_fd_at_close : bool)
  : GSocketInputStreamPrivate :=
  {| fd := fd; close_fd_at_close := close_fd_at_close |}.

(** What a system call answers: the value it returns and the value of
    [errno] after it. *)
Record syscall_answer : Type := {
  return_value : Z;
  errno : Z
}.

(** The contract of [poll], [read] and [close]: the call returns [-1] to
    report an error and a non-negative value otherwise. *)
Definition posix_answer (a : syscall_answer) : Prop :=
  return_value a = -1 ∨ 0 ≤ return_value a.

(** The system calls a function made, in program order. *)
Inductive syscall : Type :=
| sys_poll (stream_fd cancel_fd : Z)
| sys_read (fd : Z) (count : Z)
| sys_close (fd : Z).

(** What ends up in [*error]. *)
Inductive GError : Type :=
| G_IO_ERROR_CANCELLED
| G_IO_ERROR_from_errno (errno : Z) (message : string).

(** What the caller of a function gets back: the returned value, the
    error that was set, if any, and the system calls that were made. *)
Record outcome (A : Type) : Type := {
  returned : A;
  error : option GError;
  syscalls : list syscall
}.
Arguments returned {A} _.
Arguments error {A} _.
Arguments syscalls {A} _.

Definition after_syscall {A : Type} (c : syscall) (o : outcome A) : outcome A :=
  {| returned := returned o; error := error o; syscalls := c :: syscalls o |}.

(** What the environment does in one turn of a read loop: either the
    cancellable is found cancelled by
    [g_cancellable_set_error_if_cancelled], or it is not and [read]
    gives an answer. *)
Inductive iteration : Type :=
| cancellation_fired
| read_answers (a : syscall_answer).

(** The environment of one call of [g_socket_input_stream_read]: what
    [g_cancellable_get_fd] returns, the answers of the successive [poll]
    calls and the successive turns of the read loop. *)
Record environment : Type := {
  cancel_fd : Z;
  polls : list syscall_answer;
  iterations : list iteration
}.

Section Stream.

(** The value of [EINTR] in [errno.h]. *)
Variable EINTR : Z.

(** The [do ... while (poll_ret == -1 && errno == EINTR)] loop; it gives
    the answer of the last [poll] and the calls made, and [None] when the
    environment's answers run out with the loop still turning. *)
Fixpoint poll_loop (stream_fd cancel_fd : Z) (answers : list syscall_answer)
  : option (syscall_answer * list syscall) :=
  match answers with
  | [] => None
  | a :: rest =>
      if (return_value a =? -1) && (errno a =? EINTR) then
        match poll_loop stream_fd cancel_fd rest with
        | Some (b, calls) => Some (b, sys_poll stream_fd cancel_fd :: calls)
        | None => None
        end
      else Some (a, [sys_poll stream_fd cancel_fd])
  end.

(** The [while (1)] loop of [g_socket_input_stream_read].  [res] is the
    variable of that name: the loop is entered with whatever it holds,
    and [break] after the cancellation check leaves it as it is. *)
Fixpoint read_loop (fd count : Z) (res : Z) (turns : list iteration)
  : option (outcome Z) :=
  match turns with
  | [] => None
  | cancellation_fired :: _ =>
      Some {| returned := res;
              error := Some G_IO_ERROR_CANCELLED;
              syscalls := [] |}
  | read_answers a :: rest =>
      let res := return_value a in
      if res =? -1 then
        if errno a =? EINTR then
          option_map (after_syscall (sys_read fd count))
                     (read_loop fd count res rest)
        else
          Some {| returned := res;
                  error := Some (G_IO_ERROR_from_errno (errno a)
                                   "Error reading from socket: ");
                  syscalls := [sys_read fd count] |}
      else
        Some {| returned := res; error := None;
                syscalls := [sys_read fd count] |}
  end.

(** [g_socket_input_stream_read].  [res] is declared without an
    initializer, so what it holds when the loop is entered is not
    determined by the program: it is the argument [res_indeterminate]. *)
Definition g_socket_input_stream_read
    (res_indeterminate : Z)
    (priv : GSocketInputStreamPrivate) (count : Z) (env : environment)
  : option (outcome Z) :=
  if negb (cancel_fd env =? -1) then
    match poll_loop (fd priv) (cancel_fd env) (polls env) with
    | None => None
    | Some (poll_ret, calls) =>
        if return_value poll_ret =? -1 then
          Some {| returned := -1;
                  error := Some (G_IO_ERROR_from_errno (errno poll_ret)
                                   "Error reading from socket: ");
                  syscalls := calls |}
        else
          option_map
            (λ o, {| returned := returned o; error := error o;
                     syscalls := calls ++ syscalls o |})
            (read_loop (fd priv) count res_indeterminate (iterations env))
    end
  else read_loop (fd priv) count res_indeterminate (iterations env).

(** The [while (1)] loop of [read_async_cb], which assigns
    [count_read = -1] before it leaves on cancellation. *)
Fixpoint read_async_cb_loop (fd count : Z) (turns : list iteration)
  : option (outcome Z) :=
  match turns with
  | [] => None
  | cancellation_fired :: _ =>
      Some {| returned := -1;
              error := Some G_IO_ERROR_CANCELLED;
              syscalls := [] |}
  | read_answers a :: rest =>
      let count_read := return_value a in
      if count_read =? -1 then
        if errno a =? EINTR then
          option_map (after_syscall (sys_read fd count))
                     (read_async_cb_loop fd count rest)
        else
          Some {| returned := count_read;
                  error := Some (G_IO_ERROR_from_errno (errno a)
                                   "Error reading from socket: ");
                  syscalls := [sys_read fd count] |}
      else
        Some {| returned := count_read; error := None;
                syscalls := [sys_read fd count] |}
  end.

End Stream.

(** [g_socket_input_stream_close].  [close_answer] is what [close]
    answers if it is called.  The function is given the private part of
    the stream and hands it back, so that what it does to it can be
    stated. *)
Definition g_socket_input_stream_close
    (priv : GSocketInputStreamPrivate) (close_answer : syscall_answer)
  : outcome bool * GSocketInputStreamPrivate :=
  if negb (close_fd_at_close priv) then
    ({| returned := true; error := None; syscalls := [] |}, priv)
  else
    let res := return_value close_answer in
    ({| returned := negb (res =? -1);
        error := if res =? -1
                 then Some (G_IO_ERROR_from_errno (errno close_answer)
                              "Error closing socket: ")
                 else None;
        syscalls := [sys_close (fd priv)] |}, priv).

(** Closing once per answer in [answers], one call after the other on the
    same stream: the outcomes in order and the stream at the end. *)
Fixpoint close_repeatedly
    (priv : GSocketInputStreamPrivate) (answers : list syscall_answer)
  : list (outcome bool) * GSocketInputStreamPrivate :=
  match answers with
  | [] => ([], priv)
  | a :: rest =>
      let '(o, priv') := g_socket_input_stream_close priv a in
      let '(os, priv'') := close_repeatedly priv' rest in
      (o :: os, priv'')
  end.

(** The answer of a system call that a signal interrupted. *)
Definition interrupted (EINTR : Z) : syscall_answer :=
  {| return_value := -1; errno := EINTR |}.

(** *** Inputs the statements below are tried on *)

(** [EINTR] and [ECONNRESET] on Linux. *)
Definition EINTR_linux : Z := 4.
Definition ECONNRESET_linux : Z := 104.

Definition stream_5 : GSocketInputStreamPrivate :=
  g_socket_input_stream_new 5 false.

Definition stream_6_owned : GSocketInputStreamPrivate :=
  g_socket_input_stream_new 6 true.

(** A cancellable that has no descriptor to wait on and is cancelled
    when the read loop is entered. *)
Definition env_cancelled_at_entry : environment :=
  {| cancel_fd := -1; polls := []; iterations := [cancellation_fired] |}.

(** A cancellable whose descriptor becomes readable in the wait, so that
    [poll] returns 1 and the read loop finds it cancelled. *)
Definition env_cancelled_in_wait : environment :=
  {| cancel_fd := 9;
     polls := [ {| return_value := 1; errno := 0 |} ];
     iterations := [cancellation_fired] |}.

(** *** The asynchronous operations *)

(** The function whose address tags an asynchronous result. *)
Inductive source_tag : Type :=
| g_socket_input_stream_read_async_tag
| g_socket_input_stream_close_async_tag.

(** Modelled from the spec: [GSimpleAsyncResult] of
    [gsimpleasyncresult.c] is not in the sources at hand.  It is the
    asynchronous result object that stores the outcome of an operation
    (a byte count, an error) and is tagged with the identity of the
    operation that made it. *)
Record GSimpleAsyncResult : Type := {
  source_object : GSocketInputStreamPrivate;
  source_tag_of : source_tag;
  op_res_gssize : Z;
  simple_error : option GError
}.

(** Modelled from the spec: [g_simple_async_result_new]; a new result
    holds no error and no outcome yet. *)
Definition g_simple_async_result_new
    (source : GSocketInputStreamPrivate) (tag : source_tag)
  : GSimpleAsyncResult :=
  {| source_object := source; source_tag_of := tag;
     op_res_gssize := 0; simple_error := None |}.

(** Modelled from the spec: [g_simple_async_result_set_op_res_gssize]. *)
Definition g_simple_async_result_set_op_res_gssize
    (simple : GSimpleAsyncResult) (n : Z) : GSimpleAsyncResult :=
  {| source_object := source_object simple;
     source_tag_of := source_tag_of simple;
     op_res_gssize := n; simple_error := simple_error simple |}.

(** Modelled from the spec: [g_simple_async_result_set_from_error], which
    stores the error in the result's error slot. *)
Definition g_simple_async_result_set_from_error
    (simple : GSimpleAsyncResult) (e : option GError) : GSimpleAsyncResult :=
  {| source_object := source_object simple;
     source_tag_of := source_tag_of simple;
     op_res_gssize := op_res_gssize simple; simple_error := e |}.

(** Modelled from the spec: [g_simple_async_result_complete] calls the
    completion callback with its user data and the result; a completion
    records that call. *)
Record completion : Type := {
  completed_callback : positive;
  completed_user_data : positive;
  completed_result : GSimpleAsyncResult
}.

(** [ReadAsyncData], without the buffer and with the cancellable in the
    environment's turns. *)
Record ReadAsyncData : Type := {
  rad_count : Z;
  rad_callback : positive;
  rad_user_data : positive;
  rad_stream : GSocketInputStreamPrivate
}.

(** What [g_socket_input_stream_read_async] attaches to the main loop: a
    source on a descriptor, with [read_async_cb] and its data. *)
Record fd_source : Type := {
  source_fd : Z;
  source_data : ReadAsyncData
}.

(** [g_socket_input_stream_read_async]. *)
Definition g_socket_input_stream_read_async
    (priv : GSocketInputStreamPrivate) (count : Z)
    (callback user_data : positive) : fd_source :=
  {| source_fd := fd priv;
     source_data := {| rad_count := count; rad_callback := callback;
                       rad_user_data := user_data; rad_stream := priv |} |}.

(** [read_async_cb]: the value it returns to the main loop, the
    completion it makes and the system calls. *)
Definition read_async_cb (EINTR : Z) (data : ReadAsyncData)
    (turns : list iteration)
  : option (bool * completion * list syscall) :=
  match read_async_cb_loop EINTR (fd (rad_stream data)) (rad_count data) turns
  with
  | None => None
  | Some o =>
      let count_read := returned o in
      let simple :=
        g_simple_async_result_new (rad_stream data)
          g_socket_input_stream_read_async_tag in
      let simple := g_simple_async_result_set_op_res_gssize simple count_read in
      let simple :=
        if count_read =? -1
        then g_simple_async_result_set_from_error simple (error o)
        else simple in
      Some (false,
            {| completed_callback := rad_callback data;
               completed_user_data := rad_user_data data;
               completed_result := simple |},
            syscalls o)
  end.

(** [g_socket_input_stream_read_finish]; [None] is the failed
    [g_assert]. *)
Definition g_socket_input_stream_read_finish (simple : GSimpleAsyncResult)
  : option Z :=
  match source_tag_of simple with
  | g_socket_input_stream_read_async_tag => Some (op_res_gssize simple)
  | g_socket_input_stream_close_async_tag => None
  end.

(** [CloseAsyncData]. *)
Record CloseAsyncData : Type := {
  cad_stream : GSocketInputStreamPrivate;
  cad_callback : positive;
  cad_user_data : positive
}.

(** [g_socket_input_stream_close_async]: the data of the idle source it
    attaches. *)
Definition g_socket_input_stream_close_async
    (priv : GSocketInputStreamPrivate) (callback user_data : positive)
  : CloseAsyncData :=
  {| cad_stream := priv; cad_callback := callback;
     cad_user_data := user_data |}.

(** [close_async_cb]. *)
Definition close_async_cb (data : CloseAsyncData)
    (close_answer : syscall_answer)
  : bool * completion * list syscall :=
  let '(result, error, calls) :=
    if negb (close_fd_at_close (cad_stream data)) then (true, None, [])
    else
      let res := return_value close_answer in
      (negb (res =? -1),
       if res =? -1
       then Some (G_IO_ERROR_from_errno (errno close_answer)
                    "Error closing socket: ")
       else None,
       [sys_close (fd (cad_stream data))]) in
  let simple :=
    g_simple_async_result_new (cad_stream data)
      g_socket_input_stream_close_async_tag in
  let simple :=
    if negb result
    then g_simple_async_result_set_from_error simple error
    else simple in
  (false,
   {| completed_callback := cad_callback data;
      completed_user_data := cad_user_data data;
      completed_result := simple |},
   calls).

(** [g_socket_input_stream_close_finish]. *)
Definition g_socket_input_stream_close_finish (simple : GSimpleAsyncResult)
  : bool := true.

(** The system calls of all the calls of a run, in order. *)
Definition all_syscalls {A : Type} (os : list (outcome A)) : list syscall :=
  concat (map syscalls os).

(** A wait that a signal interrupts once and that then fails, and one
    that then finds two descriptors ready; three bytes could be read. *)
Definition env_wait_fails : environment :=
  {| cancel_fd := 9;
     polls := [ interrupted EINTR_linux;
                {| return_value := -1; errno := ECONNRESET_linux |} ];
     iterations := [ read_answers {| return_value := 3; errno := 0 |} ] |}.

Definition env_wait_passes : environment :=
  {| cancel_fd := 9;
     polls := [ interrupted EINTR_linux;
                {| return_value := 2; errno := 0 |} ];
     iterations := [ read_answers {| return_value := 3; errno := 0 |} ] |}.

(** No wait; a read that a signal interrupts and then fails. *)
Definition env_read_fails : environment :=
  {| cancel_fd := -1; polls := [];
     iterations := [ read_answers (interrupted EINTR_linux);
                     read_answers {| return_value := -1;
                                     errno := ECONNRESET_linux |} ] |}.

End SocketInputStream.

(** ** Properties of the inotify helper *)

Module InotifyHelperSpec.

Import InotifyHelper.

Local Open Scope ih_scope.

(** *** The header *)

Lemma linux_inotify_wf : abi_wf linux_inotify.
Proof.
  unfold abi_wf. split; [| split].
  - unfold case_labels, linux_inotify; simpl.
    repeat (apply NoDup_cons_2;
            [ intros Hin;
              repeat (apply elem_of_cons in Hin as [Hin | Hin];
                      [discriminate Hin |]);
              by apply elem_of_nil in Hin |]).
    apply NoDup_nil_2.
  - unfold case_labels, linux_inotify; simpl.
    repeat (apply Forall_cons; split; [split; [lia | reflexivity] |]).
    apply Forall_nil. exact I.
  - simpl. lia.
Qed.

(** Clearing the directory bit gives back a mask that did not have it,
    whether or not the bit was added in between. *)
Lemma land_lnot_disjoint (c d : Z) :
  Z.land c d = 0 → Z.land c (Z.lnot d) = c.
Proof.
  intros H. apply Z.bits_inj'. intros n Hn.
  assert (Hb : Z.testbit (Z.land c d) n = false)
    by (rewrite H; apply Z.bits_0).
  rewrite Z.land_spec in Hb.
  rewrite Z.land_spec, Z.lnot_spec by exact Hn.
  destruct (Z.testbit c n), (Z.testbit d n); simpl in *; congruence.
Qed.

Lemma land_lor_lnot_disjoint (c d : Z) :
  Z.land c d = 0 → Z.land (Z.lor c d) (Z.lnot d) = c.
Proof.
  intros H. apply Z.bits_inj'. intros n Hn.
  assert (Hb : Z.testbit (Z.land c d) n = false)
    by (rewrite H; apply Z.bits_0).
  rewrite Z.land_spec in Hb.
  rewrite Z.land_spec, Z.lor_spec, Z.lnot_spec by exact Hn.
  destruct (Z.testbit c n), (Z.testbit d n); simpl in *; congruence.
Qed.

(** Clearing a bit of a [guint32] gives a [guint32]: the [&=] of the
    source does not wrap. *)
Lemma land_lnot_guint32 (m d : Z) :
  0 ≤ m < 2 ^ 32 → 0 ≤ Z.land m (Z.lnot d) < 2 ^ 32.
Proof.
  intros Hm. split; [apply Z.land_nonneg; left; lia |].
  assert (E : Z.land m (Z.lnot d) = Z.land m (Z.lnot d) mod 2 ^ 32).
  { rewrite <- Z.land_ones by lia. apply Z.bits_inj'. intros n Hn.
    rewrite !Z.land_spec. destruct (Z.ltb_spec n 32) as [Hlt | Hge].
    - rewrite Z.ones_spec_low by lia. by rewrite andb_true_r.
    - rewrite Z.ones_spec_high by lia. rewrite andb_false_r.
      replace (Z.testbit m n) with false; [reflexivity |].
      symmetry. rewrite <- (Z.mod_small m (2 ^ 32)) by lia.
      apply Z.mod_pow2_bits_high. lia. }
  rewrite E. apply Z.mod_pos_bound. lia.
Qed.

Lemma strip_with_isdir (abi : inotify_abi) (is_dir : bool) (c : Z) :
  Z.land c (IN_ISDIR abi) = 0 →
  Z.land (with_isdir abi is_dir c) (Z.lnot (IN_ISDIR abi)) = c.
Proof.
  intros H. destruct is_dir; simpl.
  - by apply land_lor_lnot_disjoint.
  - by apply land_lnot_disjoint.
Qed.

(** The facts a well-formed header gives, one hypothesis each. *)
Ltac abi_facts H :=
  let Hnd := fresh "Hnd" in
  let Hfa := fresh "Hfa" in
  let Hd := fresh "Hd" in
  destruct H as (Hnd & Hfa & Hd);
  unfold case_labels in Hnd, Hfa;
  repeat (apply NoDup_cons in Hnd as [? Hnd]);
  repeat match goal with
         | Hn : _ ∉ _ :: _ |- _ => apply not_elem_of_cons in Hn as [? Hn]
         end;
  repeat (apply Forall_cons in Hfa as [[? ?] Hfa]).

(** Decide each comparison of the [switch] from those facts. *)
Ltac decide_labels :=
  repeat match goal with
         | |- context [ ?a =? ?a ] => rewrite (Z.eqb_refl a)
         | |- context [ ?a =? ?b ] =>
             rewrite (proj2 (Z.eqb_neq a b))
               by (assumption || (apply not_eq_sym; assumption))
         end.

Lemma ih_mask_to_EventFlags_rows (abi : inotify_abi) (is_dir : bool) :
  abi_wf abi →
  Forall (λ row, ih_mask_to_EventFlags abi (with_isdir abi is_dir row.1) = row.2)
         (spec_mapping_table abi).
Proof.
  intros Hwf. abi_facts Hwf.
  unfold spec_mapping_table.
  repeat (apply Forall_cons; split;
          [ simpl; unfold ih_mask_to_EventFlags;
            rewrite strip_with_isdir by assumption;
            decide_labels; reflexivity |]).
  apply Forall_nil. exact I.
Qed.

(** C2.  For every row of the mapping table, [ih_mask_to_EventFlags]
    returns the listed domain event for the row's mask, with or without
    the is-directory flag: modify gives Changed; attribute-change gives
    AttributeChanged; move-self, moved-from, delete and delete-self give
    Deleted; create and moved-to give Created; unmount gives Unmounted;
    queue-overflow, open, close-write, close-nowrite, access and
    watch-removed give the value [-1] that is no event. *)
Theorem ih_mask_to_EventFlags_table
    (abi : inotify_abi) (c : Z) (e : GDirectoryMonitorEvent) (is_dir : bool) :
  abi_wf abi →
  (c, e) ∈ spec_mapping_table abi →
  ih_mask_to_EventFlags abi (with_isdir abi is_dir c) = e.
Proof.
  intros Hwf Hin.
  pose proof (ih_mask_to_EventFlags_rows abi is_dir Hwf) as Hrows.
  rewrite Forall_forall in Hrows.
  exact (Hrows (c, e) Hin).
Qed.

Lemma ih_mask_to_EventFlags_table_witness :
  abi_wf linux_inotify
  ∧ (0x400, G_DIRECTORY_MONITOR_EVENT_DELETED) ∈ spec_mapping_table linux_inotify
  ∧ ih_mask_to_EventFlags linux_inotify (with_isdir linux_inotify true 0x400)
    = G_DIRECTORY_MONITOR_EVENT_DELETED.
Proof.
  assert (Hin : (0x400, G_DIRECTORY_MONITOR_EVENT_DELETED)
                ∈ spec_mapping_table linux_inotify).
  { unfold spec_mapping_table, linux_inotify; simpl.
    do 5 apply list_elem_of_further. apply list_elem_of_here. }
  split; [exact linux_inotify_wf | split; [exact Hin |]].
  exact (ih_mask_to_EventFlags_table linux_inotify _ _ true linux_inotify_wf Hin).
Defined.

(** *** The two callbacks *)

Lemma emissions_spec_dispatch
    (target : gpointer) (child : GFile) (e : GDirectoryMonitorEvent) :
  emissions (spec_dispatch target child e) = spec_dispatch target child e.
Proof.
  unfold spec_dispatch.
  destruct (G_IS_DIRECTORY_MONITOR target), (G_IS_FILE_MONITOR target);
    reflexivity.
Qed.

Lemma spec_dispatch_nil
    (target : gpointer) (child : GFile) (e : GDirectoryMonitorEvent) :
  spec_dispatch target child e = [] ↔
  G_IS_DIRECTORY_MONITOR target = false ∧ G_IS_FILE_MONITOR target = false.
Proof.
  unfold spec_dispatch.
  destruct (G_IS_DIRECTORY_MONITOR target), (G_IS_FILE_MONITOR target);
    split; intros H; try discriminate H; try (destruct H; discriminate);
    try reflexivity; by split.
Qed.

(** The path [ih_event_callback] builds for the changed file. *)
Lemma ih_event_callback_dispatch
    (abi : inotify_abi) (event : ik_event_t) (sub : inotify_sub) :
  ih_event_callback abi event sub
  = spec_dispatch (user_data sub)
      (g_file_new_for_path
         match name event with
         | Some n => dirname sub +:+ "/" +:+ n
         | None => dirname sub +:+ "/"
         end)
      (ih_mask_to_EventFlags abi (mask event)).
Proof. reflexivity. Qed.

Lemma ih_mask_to_EventFlags_create (abi : inotify_abi) (is_dir : bool) :
  abi_wf abi →
  ih_mask_to_EventFlags abi (with_isdir abi is_dir (IN_CREATE abi))
  = G_DIRECTORY_MONITOR_EVENT_CREATED.
Proof.
  intros Hwf.
  pose proof (ih_mask_to_EventFlags_rows abi is_dir Hwf) as Hrows.
  rewrite Forall_forall in Hrows.
  apply (Hrows (IN_CREATE abi, G_DIRECTORY_MONITOR_EVENT_CREATED)).
  unfold spec_mapping_table.
  do 6 apply list_elem_of_further. apply list_elem_of_here.
Qed.

(** C1, as the code has it.  [ih_event_callback] does not look at what
    the mapping returned: for an event whose mask maps to the no-event
    value it goes through the same choice of target as for any other
    event, so a directory monitor or a file monitor receives exactly one
    event, of type [-1], and nothing is emitted only when the target is
    neither. *)
Theorem ih_event_callback_no_event_value
    (abi : inotify_abi) (event : ik_event_t) (sub : inotify_sub) :
  ih_mask_to_EventFlags abi (mask event) = G_DIRECTORY_MONITOR_EVENT_minus_one →
  (G_IS_DIRECTORY_MONITOR (user_data sub) = true →
   ∃ child, ih_event_callback abi event sub
            = [ g_directory_monitor_emit_event (user_data sub) child None
                  G_DIRECTORY_MONITOR_EVENT_minus_one ])
  ∧ (G_IS_DIRECTORY_MONITOR (user_data sub) = false →
     G_IS_FILE_MONITOR (user_data sub) = true →
     ∃ child, ih_event_callback abi event sub
              = [ g_file_monitor_emit_event (user_data sub) child None
                    G_DIRECTORY_MONITOR_EVENT_minus_one ])
  ∧ (emissions (ih_event_callback abi event sub) = [] ↔
     G_IS_DIRECTORY_MONITOR (user_data sub) = false
     ∧ G_IS_FILE_MONITOR (user_data sub) = false).
Proof.
  intros Hmap. rewrite ih_event_callback_dispatch, Hmap.
  rewrite emissions_spec_dispatch, spec_dispatch_nil.
  unfold spec_dispatch. split; [| split].
  - intros ->. eexists. reflexivity.
  - intros -> ->. eexists. reflexivity.
  - reflexivity.
Qed.

Lemma ih_event_callback_no_event_value_witness :
  ih_mask_to_EventFlags linux_inotify (mask open_event)
  = G_DIRECTORY_MONITOR_EVENT_minus_one
  ∧ ∃ child, ih_event_callback linux_inotify open_event sub_tmp_watchdir
             = [ g_directory_monitor_emit_event directory_monitor_1 child None
                   G_DIRECTORY_MONITOR_EVENT_minus_one ].
Proof.
  split; [reflexivity |].
  apply (ih_event_callback_no_event_value
           linux_inotify open_event sub_tmp_watchdir); reflexivity.
Defined.

(** C1 as it is stated fails: the mask of [open_event] maps to the
    no-event value, and the directory monitor of [sub_tmp_watchdir] is
    sent an event all the same. *)
Lemma ih_event_callback_open_event_dispatched :
  ih_mask_to_EventFlags linux_inotify (mask open_event)
  = G_DIRECTORY_MONITOR_EVENT_minus_one
  ∧ emissions (ih_event_callback linux_inotify open_event sub_tmp_watchdir)
    = [ g_directory_monitor_emit_event directory_monitor_1
          (g_file_new_for_path "/tmp/watchdir/notes.txt") None
          G_DIRECTORY_MONITOR_EVENT_minus_one ]
  ∧ ¬ (∀ (event : ik_event_t) (sub : inotify_sub),
         ih_mask_to_EventFlags linux_inotify (mask event)
         = G_DIRECTORY_MONITOR_EVENT_minus_one →
         emissions (ih_event_callback linux_inotify event sub) = []).
Proof.
  split; [reflexivity | split; [reflexivity |]].
  intros H.
  specialize (H open_event sub_tmp_watchdir eq_refl).
  discriminate H.
Qed.

Lemma land_lor_same (c d : Z) : Z.land c d = 0 → Z.land (Z.lor c d) d = d.
Proof.
  intros H. apply Z.bits_inj'. intros n Hn.
  assert (Hb : Z.testbit (Z.land c d) n = false)
    by (rewrite H; apply Z.bits_0).
  rewrite Z.land_spec in Hb.
  rewrite Z.land_spec, Z.lor_spec.
  destruct (Z.testbit c n), (Z.testbit d n); simpl in *; congruence.
Qed.

Lemma abi_wf_create (abi : inotify_abi) :
  abi_wf abi → Z.land (IN_CREATE abi) (IN_ISDIR abi) = 0 ∧ IN_ISDIR abi ≠ 0.
Proof.
  intros Hwf.
  assert (Hnz : IN_ISDIR abi ≠ 0) by (destruct Hwf as (_ & _ & Hd); lia).
  abi_facts Hwf. split; assumption.
Qed.

(** C6.  When a filename filter is set, [ih_not_missing_callback] checks
    that the filtered entry exists and emits nothing if it does not.
    Otherwise it translates a create mask, which carries the
    is-directory flag exactly when there is no filename filter, into the
    Created event and hands it to the target through the choice between
    directory monitor and file monitor that [ih_event_callback] makes. *)
Theorem ih_not_missing_callback_created
    (abi : inotify_abi) (g_file_test_exists : string → bool)
    (sub : inotify_sub) :
  abi_wf abi →
  (∀ f, filename sub = Some f →
        g_file_test_exists (dirname sub +:+ "/" +:+ f) = false →
        emissions (ih_not_missing_callback abi g_file_test_exists sub) = [])
  ∧ (∀ f, filename sub = Some f →
          g_file_test_exists (dirname sub +:+ "/" +:+ f) = true →
          emissions (ih_not_missing_callback abi g_file_test_exists sub)
          = spec_dispatch (user_data sub)
              (g_file_new_for_path (dirname sub +:+ "/" +:+ f))
              G_DIRECTORY_MONITOR_EVENT_CREATED
          ∧ emissions (ih_not_missing_callback abi g_file_test_exists sub)
            = ih_event_callback abi
                {| mask := ih_not_missing_mask abi sub; name := Some f |} sub)
  ∧ (filename sub = None →
     ih_not_missing_callback abi g_file_test_exists sub
     = spec_dispatch (user_data sub) (g_file_new_for_path (dirname sub))
         G_DIRECTORY_MONITOR_EVENT_CREATED)
  ∧ (Z.land (ih_not_missing_mask abi sub) (IN_ISDIR abi) ≠ 0 ↔
     filename sub = None)
  ∧ (∀ event, ih_event_callback abi event sub
              = spec_dispatch (user_data sub)
                  (g_file_new_for_path
                     match name event with
                     | Some n => dirname sub +:+ "/" +:+ n
                     | None => dirname sub +:+ "/"
                     end)
                  (ih_mask_to_EventFlags abi (mask event))).
Proof.
  intros Hwf.
  pose proof (ih_mask_to_EventFlags_create abi false Hwf) as Hfile.
  pose proof (ih_mask_to_EventFlags_create abi true Hwf) as Hdir.
  destruct (abi_wf_create abi Hwf) as [Hdisj Hnz].
  simpl in Hfile, Hdir.
  split; [| split; [| split; [| split]]].
  - intros f Hf Hgone.
    unfold ih_not_missing_callback. rewrite Hf, Hgone. reflexivity.
  - intros f Hf Hthere.
    rewrite ih_event_callback_dispatch.
    unfold ih_not_missing_callback, ih_not_missing_mask.
    rewrite Hf, Hthere. simpl. rewrite Hfile.
    fold (spec_dispatch (user_data sub)
            (g_file_new_for_path (dirname sub +:+ "/" +:+ f))
            G_DIRECTORY_MONITOR_EVENT_CREATED).
    rewrite emissions_spec_dispatch. split; reflexivity.
  - intros Hf.
    unfold ih_not_missing_callback, ih_not_missing_mask.
    rewrite Hf, Hdir. reflexivity.
  - unfold ih_not_missing_mask. destruct (filename sub) as [f |].
    + split; [intros H; contradiction | intros H; discriminate H].
    + rewrite land_lor_same by exact Hdisj.
      split; [reflexivity | intros _; exact Hnz].
  - intros event. apply ih_event_callback_dispatch.
Qed.

Lemma ih_not_missing_callback_created_witness :
  abi_wf linux_inotify
  ∧ ih_not_missing_callback linux_inotify (λ _, true) sub_tmp_watchdir
    = [ g_directory_monitor_emit_event directory_monitor_1
          (g_file_new_for_path "/tmp/watchdir") None
          G_DIRECTORY_MONITOR_EVENT_CREATED ].
Proof.
  split; [exact linux_inotify_wf |].
  apply (ih_not_missing_callback_created
           linux_inotify (λ _, true) sub_tmp_watchdir linux_inotify_wf).
  reflexivity.
Defined.

(** C10.  When the target of a subscription is neither a directory
    monitor nor a file monitor, [ih_event_callback] does nothing at all
    and [ih_not_missing_callback] emits no event: all it may leave is the
    message it logs when a filename filter is set. *)
Theorem callbacks_neither_monitor
    (abi : inotify_abi) (g_file_test_exists : string → bool)
    (event : ik_event_t) (sub : inotify_sub) :
  G_IS_DIRECTORY_MONITOR (user_data sub) = false →
  G_IS_FILE_MONITOR (user_data sub) = false →
  ih_event_callback abi event sub = []
  ∧ emissions (ih_not_missing_callback abi g_file_test_exists sub) = []
  ∧ Forall (λ e, is_warning e = true)
           (ih_not_missing_callback abi g_file_test_exists sub).
Proof.
  intros Hd Hf.
  unfold ih_event_callback, ih_not_missing_callback.
  rewrite Hd, Hf.
  destruct (filename sub) as [f |]; simpl.
  - destruct (g_file_test_exists (dirname sub +:+ "/" +:+ f)); simpl;
      (split; [reflexivity | split; [reflexivity |]]);
      (apply Forall_cons; split; [reflexivity | apply Forall_nil; exact I]).
  - split; [reflexivity | split; [reflexivity | apply Forall_nil; exact I]].
Qed.

Lemma callbacks_neither_monitor_witness :
  G_IS_DIRECTORY_MONITOR (user_data sub_other_target) = false
  ∧ G_IS_FILE_MONITOR (user_data sub_other_target) = false
  ∧ ih_event_callback linux_inotify open_event sub_other_target = []
  ∧ emissions (ih_not_missing_callback linux_inotify (λ _, true)
                 sub_other_target) = []
  ∧ Forall (λ e, is_warning e = true)
           (ih_not_missing_callback linux_inotify (λ _, true)
              sub_other_target).
Proof.
  split; [reflexivity | split; [reflexivity |]].
  apply (callbacks_neither_monitor linux_inotify (λ _, true)
           open_event sub_other_target); reflexivity.
Defined.

(** *** The public functions *)

(** What one call of [_ih_startup] does, by the state of the latch and
    the answer of [_ip_startup]. *)
Lemma _ih_startup_step (ip_ok : bool) (st : ih_state) :
  inotify_lock st = false →
  _ih_startup ip_ok st
  = if initialized st then Some (result st, st)
    else if ip_ok then
      Some (true, {| inotify_lock := false; initialized := true;
                     result := true; subs := subs st;
                     ip_watched := ip_watched st;
                     im_missing := im_missing st;
                     trace := trace st ++ [call_ip_startup; call_im_startup;
                                           call_id_startup] |})
    else
      Some (false, {| inotify_lock := false; initialized := false;
                      result := false; subs := subs st;
                      ip_watched := ip_watched st;
                      im_missing := im_missing st;
                      trace := trace st
                               ++ [call_ip_startup;
                                   g_warning ("Could not initialize inotify"
                                              +:+ newline)] |}).
Proof.
  destruct st as [lk ini res sb w m t]; simpl. intros ->.
  unfold _ih_startup, bind, G_LOCK; simpl.
  destruct ini; simpl; [reflexivity |].
  destruct ip_ok; simpl; rewrite <- ?app_assoc; reflexivity.
Qed.

Lemma run_startups_initialized (answers : list bool) (st : ih_state) :
  inotify_lock st = false → initialized st = true → result st = true →
  run_startups answers st = Some (replicate (length answers) true, st).
Proof.
  intros Hl Hi Hr. induction answers as [| a rest IH]; [reflexivity |].
  simpl. unfold bind at 1. rewrite (_ih_startup_step a st Hl), Hi, Hr.
  unfold bind at 1. rewrite IH. reflexivity.
Qed.

Lemma run_startups_uninitialized (answers : list bool) :
  ∀ st : ih_state,
    inotify_lock st = false → initialized st = false →
    ∃ st', run_startups answers st
           = Some (replicate (failures_before_success answers) false
                   ++ replicate (length answers
                                 - failures_before_success answers) true,
                   st')
           ∧ inotify_lock st' = false
           ∧ trace st' = trace st ++ startup_trace answers.
Proof.
  induction answers as [| a rest IH]; intros st Hl Hi.
  - exists st. simpl. rewrite app_nil_r. by split.
  - simpl run_startups. unfold bind at 1.
    rewrite (_ih_startup_step a st Hl), Hi.
    destruct a.
    + unfold bind at 1. rewrite run_startups_initialized by reflexivity.
      eexists. simpl.
      split; [reflexivity | split; reflexivity].
    + unfold bind at 1.
      match goal with
      | |- context [ run_startups rest ?s ] =>
          destruct (IH s eq_refl eq_refl) as (st' & Hrun & Hl' & Ht')
      end.
      rewrite Hrun.
      exists st'. simpl in *.
      split; [reflexivity | split; [exact Hl' |]].
      rewrite Ht', <- app_assoc. reflexivity.
Qed.

Lemma count_effects_app (p : effect → bool) (t u : list effect) :
  count_effects p (t ++ u) = (count_effects p t + count_effects p u)%nat.
Proof.
  unfold count_effects. rewrite List.filter_app. apply length_app.
Qed.

Lemma startup_trace_counts (answers : list bool) :
  count_effects is_ip_startup (startup_trace answers)
  = (failures_before_success answers + succeeded_once answers)%nat
  ∧ count_effects is_warning (startup_trace answers)
    = failures_before_success answers
  ∧ count_effects is_im_startup (startup_trace answers)
    = succeeded_once answers
  ∧ count_effects is_id_startup (startup_trace answers)
    = succeeded_once answers.
Proof.
  unfold succeeded_once.
  induction answers as [| [|] rest (I1 & I2 & I3 & I4)]; simpl.
  - by repeat split.
  - by repeat split.
  - unfold count_effects in *; simpl. rewrite I1, I2, I3, I4. by repeat split.
Qed.

(** C4, as the code has it.  The latch of [_ih_startup] is set only by a
    call that succeeds.  In every run of calls from the start of the
    process, each call made before the first success calls [_ip_startup],
    warns and returns [FALSE]; the first call that finds [_ip_startup]
    succeeding initializes the Missing-Path Tracker and the diagnostics
    and returns [TRUE]; every later call returns [TRUE] and initializes
    nothing.  So the two collaborators are initialized at most once per
    process, and one warning is written per failed call. *)
Theorem _ih_startup_latches_success (answers : list bool) :
  ∃ st, run_startups answers ih_initial_state
        = Some (replicate (failures_before_success answers) false
                ++ replicate (length answers
                              - failures_before_success answers) true,
                st)
        ∧ inotify_lock st = false
        ∧ trace st = startup_trace answers
        ∧ count_effects is_ip_startup (trace st)
          = (failures_before_success answers + succeeded_once answers)%nat
        ∧ count_effects is_warning (trace st)
          = failures_before_success answers
        ∧ count_effects is_im_startup (trace st) = succeeded_once answers
        ∧ count_effects is_id_startup (trace st) = succeeded_once answers.
Proof.
  destruct (run_startups_uninitialized answers ih_initial_state
              eq_refl eq_refl) as (st & Hrun & Hl & Ht).
  simpl in Ht.
  destruct (startup_trace_counts answers) as (C1 & C2 & C3 & C4).
  exists st. rewrite Ht. by repeat split.
Qed.

(** C4 as it is stated fails: two calls that both find [_ip_startup]
    failing both call it and both warn. *)
Lemma _ih_startup_fails_twice_warns_twice :
  ∃ st, run_startups [false; false] ih_initial_state
        = Some ([false; false], st)
        ∧ trace st
          = [ call_ip_startup;
              g_warning ("Could not initialize inotify" +:+ newline);
              call_ip_startup;
              g_warning ("Could not initialize inotify" +:+ newline) ]
        ∧ count_effects is_ip_startup (trace st) = 2%nat
        ∧ count_effects is_warning (trace st) = 2%nat
        ∧ ¬ (count_effects is_warning (trace st) ≤ 1)%nat.
Proof.
  exists {| inotify_lock := false; initialized := false; result := false;
            subs := ∅; ip_watched := ∅; im_missing := ∅;
            trace := startup_trace [false; false] |}.
  split; [vm_compute; reflexivity |].
  split; [reflexivity |]. split; [reflexivity |].
  split; [reflexivity |]. simpl. unfold count_effects; simpl. lia.
Qed.

(** What [_ih_sub_add] does, by the answer of [_ip_start_watching]. *)
Lemma _ih_sub_add_step (watch_ok : bool) (sub : sub_ptr) (st : ih_state) :
  inotify_lock st = false →
  _ih_sub_add watch_ok sub st
  = Some (true,
          if watch_ok then
            {| inotify_lock := false; initialized := initialized st;
               result := result st; subs := subs st;
               ip_watched := {[sub]} ∪ ip_watched st;
               im_missing := im_missing st;
               trace := trace st ++ [call_ip_start_watching sub] |}
          else
            {| inotify_lock := false; initialized := initialized st;
               result := result st; subs := subs st;
               ip_watched := ip_watched st;
               im_missing := {[sub]} ∪ im_missing st;
               trace := trace st ++ [call_ip_start_watching sub;
                                     call_im_add sub] |}).
Proof.
  destruct st as [lk ini res sb w m t]; simpl. intros ->.
  unfold _ih_sub_add, bind, G_LOCK; simpl.
  destruct watch_ok; simpl; rewrite <- ?app_assoc; reflexivity.
Qed.

(** C7.  [_ih_sub_add] returns [TRUE] for every subscription.  It asks
    [_ip_start_watching] for a live kernel watch; if that succeeds the
    subscription is watched by the kernel and the Missing-Path Tracker is
    not touched, and if it fails the subscription is handed to [_im_add]
    and is tracked as missing.  The caller sees [TRUE] either way. *)
Theorem _ih_sub_add_returns_true
    (watch_ok : bool) (sub : sub_ptr) (st : ih_state) :
  inotify_lock st = false →
  ∃ st', _ih_sub_add watch_ok sub st = Some (true, st')
         ∧ inotify_lock st' = false
         ∧ subs st' = subs st
         ∧ (watch_ok = true →
            trace st' = trace st ++ [call_ip_start_watching sub]
            ∧ sub ∈ ip_watched st'
            ∧ im_missing st' = im_missing st)
         ∧ (watch_ok = false →
            trace st' = trace st ++ [call_ip_start_watching sub;
                                     call_im_add sub]
            ∧ sub ∈ im_missing st'
            ∧ ip_watched st' = ip_watched st).
Proof.
  intros Hl. rewrite (_ih_sub_add_step watch_ok sub st Hl).
  eexists. split; [reflexivity |].
  destruct watch_ok; simpl.
  - split; [reflexivity | split; [reflexivity | split]].
    + intros _. split; [reflexivity | split; [| reflexivity]].
      apply elem_of_union_l, elem_of_singleton. reflexivity.
    + intros H; discriminate H.
  - split; [reflexivity | split; [reflexivity | split]].
    + intros H; discriminate H.
    + intros _. split; [reflexivity | split; [| reflexivity]].
      apply elem_of_union_l, elem_of_singleton. reflexivity.
Qed.

Lemma _ih_sub_add_returns_true_witness :
  inotify_lock ih_initial_state = false
  ∧ ∃ st', _ih_sub_add false 7%positive ih_initial_state = Some (true, st')
           ∧ inotify_lock st' = false.
Proof.
  split; [reflexivity |].
  destruct (_ih_sub_add_returns_true false 7%positive ih_initial_state eq_refl)
    as (st' & Hrun & Hl & _).
  exists st'. split; [exact Hrun | exact Hl].
Defined.



(** What [_ih_sub_cancel] does to a subscription that is not cancelled
    yet, and to one that is. *)
Lemma _ih_sub_cancel_live (sub : sub_ptr) (s : inotify_sub) (st : ih_state) :
  inotify_lock st = false →
  subs st !! sub = Some s →
  cancelled s = false →
  _ih_sub_cancel sub st
  = Some (true,
          {| inotify_lock := false; initialized := initialized st;
             result := result st;
             subs := <[sub := {| dirname := dirname s;
                                 filename := filename s;
                                 cancelled := true;
                                 user_data := user_data s |}]> (subs st);
             ip_watched := ip_watched st ∖ {[sub]};
             im_missing := im_missing st ∖ {[sub]};
             trace := trace st ++ [store_cancelled sub true;
                                   call_im_rm sub;
                                   call_ip_stop_watching sub] |}).
Proof.
  destruct st as [lk ini res sb w m t]; simpl. intros -> Hs Hc.
  unfold _ih_sub_cancel, bind, G_LOCK, get_cancelled, set_cancelled; simpl.
  rewrite Hs, Hc; simpl. rewrite Hs; simpl.
  rewrite <- ?app_assoc. reflexivity.
Qed.

Lemma _ih_sub_cancel_again (sub : sub_ptr) (s : inotify_sub) (st : ih_state) :
  inotify_lock st = false →
  subs st !! sub = Some s →
  cancelled s = true →
  _ih_sub_cancel sub st = Some (true, st).
Proof.
  destruct st as [lk ini res sb w m t]; simpl. intros -> Hs Hc.
  unfold _ih_sub_cancel, bind, G_LOCK, get_cancelled; simpl.
  rewrite Hs, Hc; simpl. reflexivity.
Qed.



(** *** More about the translation of masks *)

Lemma land_lnot_lor_same (m d : Z) :
  Z.land (Z.lor m d) (Z.lnot d) = Z.land m (Z.lnot d).
Proof.
  apply Z.bits_inj'. intros n Hn.
  rewrite !Z.land_spec, Z.lor_spec, Z.lnot_spec by exact Hn.
  destruct (Z.testbit m n), (Z.testbit d n); reflexivity.
Qed.

Lemma land_lnot_idem (m d : Z) :
  Z.land (Z.land m (Z.lnot d)) (Z.lnot d) = Z.land m (Z.lnot d).
Proof.
  apply Z.bits_inj'. intros n Hn.
  rewrite !Z.land_spec, Z.lnot_spec by exact Hn.
  destruct (Z.testbit m n), (Z.testbit d n); reflexivity.
Qed.

(** X1.  The translation of a mask does not depend on its is-directory
    bit: setting the bit or clearing it gives the same event, for every
    mask and whatever the values of the header. *)
Theorem ih_mask_to_EventFlags_ignores_isdir (abi : inotify_abi) (m : Z) :
  ih_mask_to_EventFlags abi (Z.lor m (IN_ISDIR abi))
  = ih_mask_to_EventFlags abi m
  ∧ ih_mask_to_EventFlags abi (Z.land m (Z.lnot (IN_ISDIR abi)))
    = ih_mask_to_EventFlags abi m.
Proof.
  unfold ih_mask_to_EventFlags.
  rewrite land_lnot_lor_same, land_lnot_idem. split; reflexivity.
Qed.

(** X2.  Only the masks of the table are translated.  When
    [ih_mask_to_EventFlags] returns an event, the mask without its
    is-directory bit is a label of the table and the event is the one of
    that row; a mask that, without that bit, is none of the labels of
    the [switch] gives [-1].  With the Linux values the empty mask and a
    mask of two change bits, create and modify, give [-1]. *)
Theorem ih_mask_to_EventFlags_only_table (abi : inotify_abi) (m : Z) :
  (ih_mask_to_EventFlags abi m ≠ G_DIRECTORY_MONITOR_EVENT_minus_one →
   (Z.land m (Z.lnot (IN_ISDIR abi)), ih_mask_to_EventFlags abi m)
   ∈ spec_mapping_table abi)
  ∧ (Z.land m (Z.lnot (IN_ISDIR abi)) ∉ case_labels abi →
     ih_mask_to_EventFlags abi m = G_DIRECTORY_MONITOR_EVENT_minus_one)
  ∧ ih_mask_to_EventFlags linux_inotify 0
    = G_DIRECTORY_MONITOR_EVENT_minus_one
  ∧ ih_mask_to_EventFlags linux_inotify
      (Z.lor (IN_CREATE linux_inotify) (IN_MODIFY linux_inotify))
    = G_DIRECTORY_MONITOR_EVENT_minus_one.
Proof.
  split; [| split; [| split; reflexivity]].
  - unfold ih_mask_to_EventFlags.
    remember (Z.land m (Z.lnot (IN_ISDIR abi))) as s eqn:Hs. clear Hs.
    unfold spec_mapping_table.
    repeat match goal with
           | |- context [ s =? ?c ] =>
               destruct (Z.eqb_spec s c) as [-> | ?]; simpl
           end;
      intros Hne;
      first [ by (exfalso; apply Hne)
            | repeat first [ apply list_elem_of_here
                           | apply list_elem_of_further ] ].
  - unfold ih_mask_to_EventFlags, case_labels.
    remember (Z.land m (Z.lnot (IN_ISDIR abi))) as s eqn:Hs. clear Hs.
    intros Hnot.
    repeat (apply not_elem_of_cons in Hnot as [? Hnot]).
    repeat match goal with
           | |- context [ s =? ?c ] =>
               rewrite (proj2 (Z.eqb_neq s c)) by assumption
           end.
    reflexivity.
Qed.

(** *** More about the two callbacks *)

Lemma prefix_append (a b c : string) :
  String.prefix (a +:+ b) (a +:+ c) = String.prefix b c.
Proof.
  induction a as [| x a IH]; simpl; [reflexivity |].
  destruct (Ascii.ascii_dec x x) as [_ | Hne]; [exact IH | by destruct Hne].
Qed.

Lemma prefix_slash (d : string) (n : string) :
  String.prefix (d +:+ "/") (d +:+ "/" +:+ n) = true
  ∧ String.prefix (d +:+ "/") (d +:+ "/") = true.
Proof.
  rewrite !prefix_append. split; [| reflexivity].
  simpl. destruct n; reflexivity.
Qed.

(** X4.  [ih_event_callback] emits at most one event per kernel event.
    What it emits goes to the [user_data] of the subscription, names no
    other file, and is about a path that starts with the directory of the
    subscription followed by a slash.  An object that passes both type
    checks is served as a directory monitor only. *)
Theorem ih_event_callback_emission_shape
    (abi : inotify_abi) (event : ik_event_t) (sub : inotify_sub) :
  (length (ih_event_callback abi event sub) ≤ 1)%nat
  ∧ Forall (λ e, is_emission e = true
                 ∧ emitted_monitor e = Some (user_data sub)
                 ∧ emitted_other_file e = Some None
                 ∧ ∃ p, emitted_path e = Some p
                        ∧ String.prefix (dirname sub +:+ "/") p = true)
           (ih_event_callback abi event sub)
  ∧ (G_IS_DIRECTORY_MONITOR (user_data sub) = true →
     ∃ child, ih_event_callback abi event sub
              = [ g_directory_monitor_emit_event (user_data sub) child None
                    (ih_mask_to_EventFlags abi (mask event)) ]).
Proof.
  unfold ih_event_callback.
  assert (Hp : String.prefix (dirname sub +:+ "/")
                 match name event with
                 | Some n => dirname sub +:+ "/" +:+ n
                 | None => dirname sub +:+ "/"
                 end = true).
  { destruct (name event) as [n |]; apply prefix_slash. exact "". }
  destruct (G_IS_DIRECTORY_MONITOR (user_data sub)).
  - split; [simpl; lia | split].
    + apply Forall_cons; split; [| apply Forall_nil; exact I].
      simpl. repeat split. eexists. split; [reflexivity | exact Hp].
    + intros _. eexists. reflexivity.
  - destruct (G_IS_FILE_MONITOR (user_data sub)).
    + split; [simpl; lia | split; [| intros H; discriminate H]].
      apply Forall_cons; split; [| apply Forall_nil; exact I].
      simpl. repeat split. eexists. split; [reflexivity | exact Hp].
    + split; [simpl; lia | split; [apply Forall_nil; exact I |]].
      intros H; discriminate H.
Qed.

(** *** More about the public functions *)

(** A public function that finds the lock held does not return. *)
Lemma run_call_locked (c : call) (st : ih_state) :
  inotify_lock st = true → run_call c st = None.
Proof.
  intros H. destruct c; simpl;
    unfold _ih_startup, _ih_sub_add, _ih_sub_cancel, bind, G_LOCK;
    rewrite H; reflexivity.
Qed.

(** Every way a public function can return. *)
Lemma run_call_inv (c : call) (st st' : ih_state) (r : bool) :
  run_call c st = Some (r, st') →
  inotify_lock st = false
  ∧ match c with
    | startup ip_ok =>
        st' = after_startup ip_ok st
        ∧ r = (if initialized st then result st else ip_ok)
    | sub_add watch_ok sub => st' = after_add watch_ok sub st ∧ r = true
    | sub_cancel sub =>
        ∃ s, subs st !! sub = Some s ∧ st' = after_cancel sub s st ∧ r = true
    end.
Proof.
  intros Hrun.
  destruct (inotify_lock st) eqn:Hl;
    [rewrite (run_call_locked c st Hl) in Hrun; discriminate Hrun |].
  split; [reflexivity |].
  destruct c as [ip_ok | watch_ok sub | sub]; simpl in Hrun.
  - rewrite (_ih_startup_step ip_ok st Hl) in Hrun. unfold after_startup.
    destruct (initialized st); [| destruct ip_ok];
      inversion Hrun; subst; by split.
  - rewrite (_ih_sub_add_step watch_ok sub st Hl) in Hrun.
    unfold after_add. destruct watch_ok; inversion Hrun; subst; by split.
  - destruct (subs st !! sub) as [s |] eqn:Hs.
    + exists s. split; [reflexivity |]. unfold after_cancel.
      destruct (cancelled s) eqn:Hc.
      * rewrite (_ih_sub_cancel_again sub s st Hl Hs Hc) in Hrun.
        inversion Hrun; subst; by split.
      * rewrite (_ih_sub_cancel_live sub s st Hl Hs Hc) in Hrun.
        inversion Hrun; subst; by split.
    + unfold _ih_sub_cancel, bind, G_LOCK, get_cancelled in Hrun.
      rewrite Hl in Hrun. simpl in Hrun. rewrite Hs in Hrun.
      discriminate Hrun.
Qed.

Lemma after_startup_lock (ip_ok : bool) (st : ih_state) :
  inotify_lock st = false → inotify_lock (after_startup ip_ok st) = false.
Proof.
  intros H. unfold after_startup.
  destruct (initialized st); [exact H |]. destruct ip_ok; reflexivity.
Qed.

(** X5.  The lock is taken and given back by every public function on
    every path: a call that returns was made with the lock free and
    leaves it free, the failing path of [_ih_startup] included; and a
    call made while the lock is held, as from inside a monitor's event
    handler, does not return. *)
Theorem public_functions_lock_discipline (c : call) (st : ih_state) :
  (inotify_lock st = true → run_call c st = None)
  ∧ (∀ r st', run_call c st = Some (r, st') →
              inotify_lock st = false ∧ inotify_lock st' = false).
Proof.
  split; [apply run_call_locked |].
  intros r st' Hrun.
  destruct (run_call_inv c st st' r Hrun) as [Hl Hc].
  split; [exact Hl |].
  destruct c as [ip_ok | watch_ok sub | sub].
  - destruct Hc as [-> _]. by apply after_startup_lock.
  - destruct Hc as [-> _]. unfold after_add. destruct watch_ok; reflexivity.
  - destruct Hc as (s & _ & -> & _). unfold after_cancel.
    destruct (cancelled s); [exact Hl | reflexivity].
Qed.

(** The latch and the stored result go together. *)
Lemma run_call_keeps_latch_result (c : call) (st st' : ih_state) (r : bool) :
  run_call c st = Some (r, st') →
  (initialized st = true → result st = true) →
  (initialized st' = true → result st' = true).
Proof.
  intros Hrun Hinv.
  destruct (run_call_inv c st st' r Hrun) as [_ Hc].
  destruct c as [ip_ok | watch_ok sub | sub].
  - destruct Hc as [-> _]. unfold after_startup.
    destruct (initialized st) eqn:Hi; [intros _; by apply Hinv |].
    destruct ip_ok; simpl; [reflexivity | intros H; discriminate H].
  - destruct Hc as [-> _]. unfold after_add. destruct watch_ok; exact Hinv.
  - destruct Hc as (s & _ & -> & _). unfold after_cancel.
    destruct (cancelled s); exact Hinv.
Qed.

Lemma run_calls_keep_latch_result (cs : list call) :
  ∀ st st' : ih_state,
    run_calls cs st = Some (tt, st') →
    (initialized st = true → result st = true) →
    (initialized st' = true → result st' = true).
Proof.
  induction cs as [| c rest IH]; intros st st' Hrun Hinv.
  - inversion Hrun; subst. exact Hinv.
  - simpl in Hrun. unfold bind at 1 in Hrun.
    destruct (run_call c st) as [[r st1] |] eqn:Hc; [| discriminate Hrun].
    eapply IH; [exact Hrun |].
    eapply run_call_keeps_latch_result; [exact Hc | exact Hinv].
Qed.






(** X6.  In every state a process reaches through the public functions,
    whatever subscription records its callers hold and whichever of the
    three functions were called, cancels included, a set latch comes
    with a stored result of [TRUE].  So what [_ih_startup] returns there
    is the latch as the call leaves it: [TRUE] exactly when the backend
    was initialized before or [_ip_startup] succeeds now, and the stored
    [result] is never what a caller sees as [FALSE]. *)
Theorem _ih_startup_returns_the_latch
    (subscriptions : gmap positive inotify_sub)
    (cs : list call) (st : ih_state) (ip_ok r : bool) (st' : ih_state) :
  run_calls cs (ih_process_start subscriptions) = Some (tt, st) →
  _ih_startup ip_ok st = Some (r, st') →
  (initialized st = true → result st = true)
  ∧ r = initialized st'
  ∧ r = (initialized st || ip_ok).
Proof.
  intros Hreach Hrun.
  assert (Hinv : initialized st = true → result st = true).
  { eapply run_calls_keep_latch_result; [exact Hreach |].
    simpl. intros H; discriminate H. }
  split; [exact Hinv |].
  destruct (run_call_inv (startup ip_ok) st st' r Hrun) as [_ [-> ->]].
  unfold after_startup.
  destruct (initialized st) eqn:Hi; simpl.
  - rewrite (Hinv eq_refl), Hi. by split.
  - destruct ip_ok; by split.
Qed.

Lemma _ih_startup_returns_the_latch_witness :
  run_calls [startup false; sub_add true 7%positive; sub_cancel 7%positive;
             startup true]
    (ih_process_start {[ 7%positive := sub_tmp_watchdir ]})
  = Some (tt, state_cancelled_7)
  ∧ _ih_startup false state_cancelled_7 = Some (true, state_cancelled_7)
  ∧ true = initialized state_cancelled_7.
Proof.
  assert (H1 : run_calls [startup false; sub_add true 7%positive;
                          sub_cancel 7%positive; startup true]
                 (ih_process_start {[ 7%positive := sub_tmp_watchdir ]})
               = Some (tt, state_cancelled_7)).
  { simpl run_calls. unfold bind at 1. simpl run_call.
    rewrite (_ih_startup_step false (ih_process_start _) eq_refl). simpl.
    unfold bind at 1.
    erewrite _ih_sub_add_step; [| reflexivity]. simpl.
    unfold bind at 1.
    erewrite (_ih_sub_cancel_live 7%positive sub_tmp_watchdir);
      [| reflexivity | simpl; apply lookup_singleton_eq | reflexivity].
    simpl. unfold bind at 1.
    erewrite _ih_startup_step; [| reflexivity]. reflexivity. }
  assert (H2 : _ih_startup false state_cancelled_7
               = Some (true, state_cancelled_7))
    by (rewrite _ih_startup_step by reflexivity; reflexivity).
  split; [exact H1 | split; [exact H2 |]].
  exact (proj1 (proj2 (_ih_startup_returns_the_latch _ _ _ _ _ _ H1 H2))).
Defined.

(** X3.  Neither callback reads the [cancelled] field.  After
    [_ih_sub_cancel] has returned, the subscription is marked cancelled,
    and a kernel event or a missing-path notification handed to the
    callbacks for it is dispatched exactly as before the cancel. *)
Theorem cancelled_subscription_still_dispatched
    (abi : inotify_abi) (g_file_test_exists : string → bool)
    (event : ik_event_t) (sub : sub_ptr) (s : inotify_sub) (st : ih_state) :
  inotify_lock st = false →
  subs st !! sub = Some s →
  ∃ st' s',
    _ih_sub_cancel sub st = Some (true, st')
    ∧ subs st' !! sub = Some s'
    ∧ cancelled s' = true
    ∧ ih_event_callback abi event s' = ih_event_callback abi event s
    ∧ ih_not_missing_callback abi g_file_test_exists s'
      = ih_not_missing_callback abi g_file_test_exists s.
Proof.
  intros Hl Hs. destruct (cancelled s) eqn:Hc.
  - exists st, s. rewrite (_ih_sub_cancel_again sub s st Hl Hs Hc).
    by repeat split.
  - rewrite (_ih_sub_cancel_live sub s st Hl Hs Hc).
    eexists. exists (with_cancelled true s).
    split; [reflexivity |]. simpl.
    split; [apply lookup_insert_eq |]. by repeat split.
Qed.

Lemma cancelled_subscription_still_dispatched_witness :
  inotify_lock state_watching_7 = false
  ∧ subs state_watching_7 !! 7%positive = Some sub_tmp_watchdir
  ∧ ∃ st' s',
      _ih_sub_cancel 7%positive state_watching_7 = Some (true, st')
      ∧ subs st' !! 7%positive = Some s'
      ∧ cancelled s' = true
      ∧ ih_event_callback linux_inotify open_event s'
        = ih_event_callback linux_inotify open_event sub_tmp_watchdir.
Proof.
  assert (Hs : subs state_watching_7 !! 7%positive = Some sub_tmp_watchdir)
    by (simpl; apply lookup_singleton_eq).
  split; [reflexivity | split; [exact Hs |]].
  destruct (cancelled_subscription_still_dispatched linux_inotify (λ _, true)
              open_event 7%positive sub_tmp_watchdir state_watching_7
              eq_refl Hs) as (st' & s' & H1 & H2 & H3 & H4 & _).
  exists st', s'. by repeat split.
Defined.

(** X7.  Adding a live subscription and cancelling it right away leaves
    it in neither set, whichever way the addition went: the cancel calls
    both [_im_rm] and [_ip_stop_watching], and the two sets are what they
    were before, without the subscription. *)
Theorem add_then_cancel_unregisters
    (watch_ok : bool) (sub : sub_ptr) (s : inotify_sub) (st : ih_state) :
  inotify_lock st = false →
  subs st !! sub = Some s →
  cancelled s = false →
  ∃ st', run_calls [sub_add watch_ok sub; sub_cancel sub] st = Some (tt, st')
         ∧ ip_watched st' = ip_watched st ∖ {[sub]}
         ∧ im_missing st' = im_missing st ∖ {[sub]}
         ∧ is_cancelled st' sub
         ∧ trace st'
           = trace st
             ++ call_ip_start_watching sub
                :: (if watch_ok then [] else [call_im_add sub])
             ++ [store_cancelled sub true; call_im_rm sub;
                 call_ip_stop_watching sub].
Proof.
  intros Hl Hs Hc.
  assert (Hset : ∀ X : gset positive, ({[sub]} ∪ X) ∖ {[sub]} = X ∖ {[sub]}).
  { intros X. apply set_eq. intros x.
    rewrite !elem_of_difference, elem_of_union, elem_of_singleton. tauto. }
  simpl run_calls. unfold bind at 1. simpl run_call.
  rewrite (_ih_sub_add_step watch_ok sub st Hl).
  unfold bind at 1.
  destruct watch_ok.
  - erewrite (_ih_sub_cancel_live sub s);
      [| reflexivity | exact Hs | exact Hc]. simpl.
    eexists. split; [reflexivity |]. simpl.
    split; [apply Hset |]. split; [reflexivity |].
    split; [| by rewrite <- app_assoc].
    eexists. simpl. rewrite lookup_insert_eq. by split.
  - erewrite (_ih_sub_cancel_live sub s);
      [| reflexivity | exact Hs | exact Hc]. simpl.
    eexists. split; [reflexivity |]. simpl.
    split; [reflexivity |]. split; [apply Hset |].
    split; [| by rewrite <- app_assoc].
    eexists. simpl. rewrite lookup_insert_eq. by split.
Qed.

Lemma add_then_cancel_unregisters_witness :
  inotify_lock state_watching_7 = false
  ∧ subs state_watching_7 !! 7%positive = Some sub_tmp_watchdir
  ∧ cancelled sub_tmp_watchdir = false
  ∧ ∃ st', run_calls [sub_add false 7%positive; sub_cancel 7%positive]
             state_watching_7 = Some (tt, st')
           ∧ ip_watched st' = ip_watched state_watching_7 ∖ {[7%positive]}
           ∧ im_missing st' = im_missing state_watching_7 ∖ {[7%positive]}.
Proof.
  assert (Hs : subs state_watching_7 !! 7%positive = Some sub_tmp_watchdir)
    by (simpl; apply lookup_singleton_eq).
  split; [reflexivity | split; [exact Hs | split; [reflexivity |]]].
  destruct (add_then_cancel_unregisters false 7%positive sub_tmp_watchdir
              state_watching_7 eq_refl Hs eq_refl)
    as (st' & H1 & H2 & H3 & _).
  exists st'. by repeat split.
Defined.

(** X8.  No public function makes or drops a subscription record or
    changes the directory, the filename or the target of one.  The only
    field ever written is [cancelled], only by [_ih_sub_cancel] on that
    very subscription, and only from [FALSE] to [TRUE]. *)
Theorem public_functions_keep_subscriptions
    (c : call) (st st' : ih_state) (r : bool) :
  run_call c st = Some (r, st') →
  (∀ p, subs st !! p = None → subs st' !! p = None)
  ∧ (∀ p s, subs st !! p = Some s →
            ∃ s', subs st' !! p = Some s'
                  ∧ dirname s' = dirname s
                  ∧ filename s' = filename s
                  ∧ user_data s' = user_data s
                  ∧ (cancelled s' = cancelled s
                     ∨ (c = sub_cancel p
                        ∧ cancelled s = false ∧ cancelled s' = true))).
Proof.
  intros Hrun.
  destruct (run_call_inv c st st' r Hrun) as [_ Hc].
  assert (Hsame : subs st' = subs st →
    (∀ p, subs st !! p = None → subs st' !! p = None)
    ∧ (∀ p s, subs st !! p = Some s →
              ∃ s', subs st' !! p = Some s'
                    ∧ dirname s' = dirname s
                    ∧ filename s' = filename s
                    ∧ user_data s' = user_data s
                    ∧ (cancelled s' = cancelled s
                       ∨ (c = sub_cancel p
                          ∧ cancelled s = false ∧ cancelled s' = true)))).
  { intros ->. split; [tauto |]. intros p s Hs. exists s.
    repeat split; [exact Hs |]. by left. }
  destruct c as [ip_ok | watch_ok sub | sub].
  - destruct Hc as [-> _]. apply Hsame. unfold after_startup.
    destruct (initialized st); [| destruct ip_ok]; reflexivity.
  - destruct Hc as [-> _]. apply Hsame. unfold after_add.
    destruct watch_ok; reflexivity.
  - destruct Hc as (s0 & Hs0 & -> & _). unfold after_cancel in *.
    destruct (cancelled s0) eqn:Hc0; [by apply Hsame |]. clear Hsame.
    simpl. split.
    + intros p Hp. rewrite lookup_insert_ne; [exact Hp |].
      intros ->. rewrite Hs0 in Hp. discriminate Hp.
    + intros p s Hs. destruct (decide (sub = p)) as [-> | Hne].
      * rewrite Hs0 in Hs. inversion Hs; subst.
        exists (with_cancelled true s). rewrite lookup_insert_eq.
        repeat split. right. by repeat split.
      * exists s. rewrite lookup_insert_ne by exact Hne.
        repeat split; [exact Hs |]. by left.
Qed.

Lemma public_functions_keep_subscriptions_witness :
  run_call (sub_cancel 7%positive) state_watching_7
  = Some (true, after_cancel 7%positive sub_tmp_watchdir state_watching_7)
  ∧ ∀ p, subs state_watching_7 !! p = None →
         subs (after_cancel 7%positive sub_tmp_watchdir state_watching_7) !! p
         = None.
Proof.
  assert (H : run_call (sub_cancel 7%positive) state_watching_7
              = Some (true,
                      after_cancel 7%positive sub_tmp_watchdir
                        state_watching_7)).
  { simpl run_call.
    rewrite (_ih_sub_cancel_live 7%positive sub_tmp_watchdir state_watching_7
               eq_refl (lookup_singleton_eq _ _) eq_refl).
    reflexivity. }
  split; [exact H |].
  exact (proj1 (public_functions_keep_subscriptions _ _ _ _ H)).
Defined.

Lemma run_call_after_success (c : call) (st st' : ih_state) (r : bool) :
  initialized st = true →
  run_call c st = Some (r, st') →
  initialized st' = true
  ∧ ∃ t, trace st' = trace st ++ t
         ∧ Forall (λ e, is_startup_effect e = false) t.
Proof.
  intros Hi Hrun.
  destruct (run_call_inv c st st' r Hrun) as [_ Hc].
  destruct c as [ip_ok | watch_ok sub | sub].
  - destruct Hc as [-> _]. unfold after_startup. rewrite Hi.
    split; [exact Hi |]. exists []. rewrite app_nil_r.
    split; [reflexivity | apply Forall_nil; exact I].
  - destruct Hc as [-> _]. unfold after_add.
    destruct watch_ok; simpl; (split; [exact Hi |]); eexists;
      (split; [reflexivity |]);
      repeat (apply Forall_cons; split; [reflexivity |]);
      apply Forall_nil; exact I.
  - destruct Hc as (s & _ & -> & _). unfold after_cancel.
    destruct (cancelled s); simpl; (split; [exact Hi |]).
    + exists []. rewrite app_nil_r.
      split; [reflexivity | apply Forall_nil; exact I].
    + eexists. split; [reflexivity |].
      repeat (apply Forall_cons; split; [reflexivity |]).
      apply Forall_nil; exact I.
Qed.

(** X9.  Once a start-up has succeeded the latch stays set, and no later
    call of a public function, in any order, calls one of the three
    initializers or writes a warning: the trace only grows, by entries
    that are none of those. *)
Theorem no_startup_effect_after_success (cs : list call) :
  ∀ st st' : ih_state,
    initialized st = true →
    run_calls cs st = Some (tt, st') →
    initialized st' = true
    ∧ ∃ t, trace st' = trace st ++ t
           ∧ Forall (λ e, is_startup_effect e = false) t.
Proof.
  induction cs as [| c rest IH]; intros st st' Hi Hrun.
  - inversion Hrun; subst. split; [exact Hi |]. exists [].
    rewrite app_nil_r. split; [reflexivity | apply Forall_nil; exact I].
  - simpl in Hrun. unfold bind at 1 in Hrun.
    destruct (run_call c st) as [[r st1] |] eqn:Hc; [| discriminate Hrun].
    destruct (run_call_after_success c st st1 r Hi Hc)
      as (Hi1 & t1 & Ht1 & Hf1).
    destruct (IH st1 st' Hi1 Hrun) as (Hi' & t2 & Ht2 & Hf2).
    split; [exact Hi' |]. exists (t1 ++ t2).
    split; [rewrite Ht2, Ht1, app_assoc; reflexivity |].
    apply Forall_app. by split.
Qed.

Lemma no_startup_effect_after_success_witness :
  initialized state_watching_7 = true
  ∧ ∃ st', run_calls [startup false; sub_cancel 7%positive; startup true]
             state_watching_7 = Some (tt, st')
           ∧ initialized st' = true.
Proof.
  split; [reflexivity |].
  assert (H : run_calls [startup false; sub_cancel 7%positive; startup true]
                state_watching_7
              = Some (tt, after_cancel 7%positive sub_tmp_watchdir
                            state_watching_7)).
  { simpl run_calls. unfold bind at 1. simpl run_call.
    rewrite (_ih_startup_step false state_watching_7 eq_refl). simpl.
    unfold bind at 1.
    rewrite (_ih_sub_cancel_live 7%positive sub_tmp_watchdir state_watching_7
               eq_refl (lookup_singleton_eq _ _) eq_refl).
    unfold bind at 1. rewrite _ih_startup_step by reflexivity. reflexivity. }
  eexists. split; [exact H |].
  exact (proj1 (no_startup_effect_after_success _ state_watching_7 _
                  eq_refl H)).
Defined.

End InotifyHelperSpec.

(** ** Properties of the socket input stream *)

Module SocketInputStreamSpec.

Import SocketInputStream.

(** *** The wait before the read *)

(** The [poll] loop ends on an answer that is not an interruption. *)
Lemma poll_loop_last_answer
    (EINTR stream_fd cancel_fd : Z) (answers : list syscall_answer) :
  ∀ (a : syscall_answer) (calls : list syscall),
    poll_loop EINTR stream_fd cancel_fd answers = Some (a, calls) →
    ¬ (return_value a = -1 ∧ errno a = EINTR).
Proof.
  induction answers as [| b rest IH]; intros a calls H; simpl in H.
  - discriminate H.
  - destruct ((return_value b =? -1) && (errno b =? EINTR)) eqn:Hb.
    + destruct (poll_loop EINTR stream_fd cancel_fd rest)
        as [[c calls'] |] eqn:Hrest; [| discriminate H].
      inversion H; subst. by eapply IH.
    + inversion H; subst. intros [Hr He].
      rewrite Hr, He, !Z.eqb_refl in Hb. discriminate Hb.
Qed.

(** *** The read loop *)

(** Interrupted reads are absorbed: the loop goes on with the rest of
    the environment's answers. *)
Lemma read_loop_interrupted
    (EINTR fd count : Z) (k : nat) (turns : list iteration) :
  ∀ res : Z,
    read_loop EINTR fd count res
      (replicate k (read_answers (interrupted EINTR)) ++ turns)
    = match k with
      | O => read_loop EINTR fd count res turns
      | S _ =>
          option_map
            (λ o, {| returned := returned o; error := error o;
                     syscalls := replicate k (sys_read fd count)
                                 ++ syscalls o |})
            (read_loop EINTR fd count (-1) turns)
      end.
Proof.
  induction k as [| k IH]; intros res; [reflexivity |].
  simpl replicate. simpl app. simpl read_loop. rewrite Z.eqb_refl.
  rewrite IH. destruct k as [| k].
  - simpl. destruct (read_loop EINTR fd count (-1) turns) as [o |];
      reflexivity.
  - destruct (read_loop EINTR fd count (-1) turns) as [o |]; reflexivity.
Qed.

(** No error the loop sets carries [EINTR]. *)
Lemma read_loop_never_eintr
    (EINTR fd count : Z) (turns : list iteration) :
  ∀ (res : Z) (o : outcome Z) (message : string),
    read_loop EINTR fd count res turns = Some o →
    error o ≠ Some (G_IO_ERROR_from_errno EINTR message).
Proof.
  induction turns as [| [| a] rest IH]; intros res o message H; simpl in H.
  - discriminate H.
  - inversion H; subst; simpl. discriminate.
  - destruct (return_value a =? -1) eqn:Hr.
    + destruct (errno a =? EINTR) eqn:He.
      * destruct (read_loop EINTR fd count (return_value a) rest)
          as [o' |] eqn:Hrest; [| discriminate H].
        inversion H; subst; simpl. by eapply IH.
      * inversion H; subst; simpl. intros Heq. inversion Heq; subst.
        rewrite Z.eqb_refl in He. discriminate He.
    + inversion H; subst; simpl. discriminate.
Qed.

(** C8.  In the read loop of [g_socket_input_stream_read], reads that a
    signal interrupted are tried again and leave nothing behind; the
    first answer that is not an interruption decides the call: [-1] sets
    an I/O error made from [errno] and is returned, and a non-negative
    value, zero included, is returned as the byte count with no error.
    No error of the function, from the wait or from the loop, carries
    [EINTR]. *)
Theorem read_loop_retries_only_eintr
    (EINTR stream_fd count res : Z) (k : nat) (a : syscall_answer)
    (rest : list iteration) :
  posix_answer a →
  ¬ (return_value a = -1 ∧ errno a = EINTR) →
  read_loop EINTR stream_fd count res
    (replicate k (read_answers (interrupted EINTR)) ++ read_answers a :: rest)
  = Some {| returned := return_value a;
            error := if return_value a =? -1
                     then Some (G_IO_ERROR_from_errno (errno a)
                                  "Error reading from socket: ")
                     else None;
            syscalls := replicate (S k) (sys_read stream_fd count) |}
  ∧ (return_value a < 0 → return_value a = -1 ∧ errno a ≠ EINTR)
  ∧ (0 ≤ return_value a → (return_value a =? -1) = false)
  ∧ (∀ res' priv env o message,
       g_socket_input_stream_read EINTR res' priv count env = Some o →
       error o ≠ Some (G_IO_ERROR_from_errno EINTR message)).
Proof.
  intros Hposix Hnot.
  split; [| split; [| split]].
  - rewrite read_loop_interrupted.
    assert (Hlast : ∀ r, read_loop EINTR stream_fd count r (read_answers a :: rest)
              = Some {| returned := return_value a;
                        error := if return_value a =? -1
                                 then Some (G_IO_ERROR_from_errno (errno a)
                                              "Error reading from socket: ")
                                 else None;
                        syscalls := [sys_read stream_fd count] |}).
    { intros r. simpl. destruct (return_value a =? -1) eqn:Hr; [| reflexivity].
      destruct (errno a =? EINTR) eqn:He; [| reflexivity].
      exfalso. apply Hnot. split; [by apply Z.eqb_eq | by apply Z.eqb_eq]. }
    destruct k as [| k]; rewrite Hlast; [reflexivity |].
    rewrite (replicate_S_end (S k)). reflexivity.
  - intros Hneg. destruct Hposix as [H1 | H0]; [| lia].
    split; [exact H1 |]. intros He. apply Hnot. by split.
  - intros H0. apply Z.eqb_neq. lia.
  - intros res' priv env o message H. unfold g_socket_input_stream_read in H.
    destruct (negb (cancel_fd env =? -1)).
    + destruct (poll_loop EINTR (fd priv) (cancel_fd env) (polls env))
        as [[p calls] |] eqn:Hp; [| discriminate H].
      pose proof (poll_loop_last_answer _ _ _ _ _ _ Hp) as Hlast.
      destruct (return_value p =? -1) eqn:Hr.
      * inversion H; subst; simpl. intros Heq. inversion Heq as [He].
        apply Hlast. split; [by apply Z.eqb_eq | exact He].
      * destruct (read_loop EINTR (fd priv) count res' (iterations env))
          as [o' |] eqn:Hl; [| discriminate H].
        inversion H; subst; simpl. by eapply read_loop_never_eintr.
    + by eapply read_loop_never_eintr.
Qed.

Lemma read_loop_retries_only_eintr_witness :
  posix_answer {| return_value := 0; errno := 0 |}
  ∧ ¬ (return_value {| return_value := 0; errno := 0 |} = -1
       ∧ errno {| return_value := 0; errno := 0 |} = EINTR_linux)
  ∧ read_loop EINTR_linux 5 16 7
      [ read_answers (interrupted EINTR_linux);
        read_answers (interrupted EINTR_linux);
        read_answers {| return_value := 0; errno := 0 |} ]
    = Some {| returned := 0; error := None;
              syscalls := [sys_read 5 16; sys_read 5 16; sys_read 5 16] |}.
Proof.
  assert (Hp : posix_answer {| return_value := 0; errno := 0 |})
    by (right; simpl; lia).
  assert (Hn : ¬ (return_value {| return_value := 0; errno := 0 |} = -1
                  ∧ errno {| return_value := 0; errno := 0 |} = EINTR_linux))
    by (simpl; intros [H _]; discriminate H).
  split; [exact Hp | split; [exact Hn |]].
  exact (proj1 (read_loop_retries_only_eintr EINTR_linux 5 16 7 2
                  {| return_value := 0; errno := 0 |} [] Hp Hn)).
Defined.

(** C3.  When the cancellable is found cancelled the first time the loop
    of [g_socket_input_stream_read] looks, the error is the Cancelled
    error and no [read] is made, but the value returned is whatever [res]
    held before its first assignment; [read_async_cb] assigns [-1] on the
    same path.  With 42 in [res] the caller gets 42 back, after the wait
    as well as without one.  Only when a read was interrupted before the
    cancellation is seen does [res] hold the [-1] of that read. *)
Theorem read_cancelled_returns_unassigned_res
    (EINTR res_indeterminate count : Z) (priv : GSocketInputStreamPrivate)
    (rest : list iteration) :
  g_socket_input_stream_read EINTR res_indeterminate priv count
    {| cancel_fd := -1; polls := []; iterations := cancellation_fired :: rest |}
  = Some {| returned := res_indeterminate;
            error := Some G_IO_ERROR_CANCELLED;
            syscalls := [] |}
  ∧ read_async_cb_loop EINTR (fd priv) count (cancellation_fired :: rest)
    = Some {| returned := -1;
              error := Some G_IO_ERROR_CANCELLED;
              syscalls := [] |}
  ∧ g_socket_input_stream_read EINTR_linux 42 stream_5 16
      env_cancelled_at_entry
    = Some {| returned := 42;
              error := Some G_IO_ERROR_CANCELLED;
              syscalls := [] |}
  ∧ g_socket_input_stream_read EINTR_linux 42 stream_5 16
      env_cancelled_in_wait
    = Some {| returned := 42;
              error := Some G_IO_ERROR_CANCELLED;
              syscalls := [sys_poll 5 9] |}
  ∧ read_loop EINTR (fd priv) count res_indeterminate
      (read_answers (interrupted EINTR) :: cancellation_fired :: rest)
    = Some {| returned := -1;
              error := Some G_IO_ERROR_CANCELLED;
              syscalls := [sys_read (fd priv) count] |}.
Proof.
  split; [reflexivity |]. split; [reflexivity |].
  split; [reflexivity |]. split; [reflexivity |].
  simpl. rewrite Z.eqb_refl. reflexivity.
Qed.

(** *** Close *)

Lemma close_not_owned
    (priv : GSocketInputStreamPrivate) (a : syscall_answer) :
  close_fd_at_close priv = false →
  g_socket_input_stream_close priv a
  = ({| returned := true; error := None; syscalls := [] |}, priv).
Proof.
  intros H. unfold g_socket_input_stream_close. rewrite H. reflexivity.
Qed.

(** C9.  On a stream made with [close_fd_at_close] false,
    [g_socket_input_stream_close] returns [TRUE], sets no error, makes no
    system call and leaves the stream, its [fd] included, as it was; and
    so does every call of any number of calls in a row, two in
    particular. *)
Theorem close_not_owned_is_noop
    (priv : GSocketInputStreamPrivate) (answers : list syscall_answer) :
  close_fd_at_close priv = false →
  close_repeatedly priv answers
  = (replicate (length answers)
       {| returned := true; error := None; syscalls := [] |}, priv)
  ∧ (∀ a b : syscall_answer,
       close_repeatedly priv [a; b]
       = ([ {| returned := true; error := None; syscalls := [] |};
            {| returned := true; error := None; syscalls := [] |} ], priv))
  ∧ (∀ a : syscall_answer,
       fd (g_socket_input_stream_close priv a).2 = fd priv
       ∧ syscalls (g_socket_input_stream_close priv a).1 = []
       ∧ returned (g_socket_input_stream_close priv a).1 = true
       ∧ error (g_socket_input_stream_close priv a).1 = None).
Proof.
  intros H.
  assert (Hall : ∀ l, close_repeatedly priv l
                 = (replicate (length l)
                      {| returned := true; error := None; syscalls := [] |},
                    priv)).
  { induction l as [| a rest IH]; [reflexivity |].
    simpl. rewrite (close_not_owned priv a H), IH. reflexivity. }
  split; [apply Hall | split].
  - intros a b. apply (Hall [a; b]).
  - intros a. rewrite (close_not_owned priv a H). by repeat split.
Qed.

Lemma close_not_owned_is_noop_witness :
  close_fd_at_close stream_5 = false
  ∧ close_repeatedly stream_5
      [ interrupted EINTR_linux; {| return_value := 0; errno := 0 |} ]
    = ([ {| returned := true; error := None; syscalls := [] |};
         {| returned := true; error := None; syscalls := [] |} ], stream_5).
Proof.
  split; [reflexivity |].
  exact (proj1 (close_not_owned_is_noop stream_5
                  [ interrupted EINTR_linux;
                    {| return_value := 0; errno := 0 |} ] eq_refl)).
Defined.

(** *** More about the synchronous read *)

Lemma poll_loop_interrupted
    (EINTR stream_fd cancel_fd : Z) (k : nat) (p : syscall_answer)
    (rest : list syscall_answer) :
  ¬ (return_value p = -1 ∧ errno p = EINTR) →
  poll_loop EINTR stream_fd cancel_fd
    (replicate k (interrupted EINTR) ++ p :: rest)
  = Some (p, replicate (S k) (sys_poll stream_fd cancel_fd)).
Proof.
  intros Hnot. induction k as [| k IH].
  - simpl. destruct (return_value p =? -1) eqn:Hr; [| reflexivity].
    destruct (errno p =? EINTR) eqn:He; [| reflexivity].
    exfalso. apply Hnot. split; by apply Z.eqb_eq.
  - simpl replicate. simpl app. simpl poll_loop. rewrite Z.eqb_refl. simpl.
    rewrite IH. reflexivity.
Qed.

(** X10.  When the wait fails, the read fails without reading.  With a
    cancellable that has a descriptor, [poll] is called again after each
    interruption by a signal; when it then fails with another error the
    function returns [-1] with an I/O error made from that [errno], and
    no [read] is made, whatever the descriptor holds. *)
Theorem read_wait_failure
    (EINTR res count : Z) (priv : GSocketInputStreamPrivate)
    (env : environment) (k : nat) (p : syscall_answer)
    (rest : list syscall_answer) :
  cancel_fd env ≠ -1 →
  polls env = replicate k (interrupted EINTR) ++ p :: rest →
  return_value p = -1 →
  errno p ≠ EINTR →
  g_socket_input_stream_read EINTR res priv count env
  = Some {| returned := -1;
            error := Some (G_IO_ERROR_from_errno (errno p)
                             "Error reading from socket: ");
            syscalls := replicate (S k)
                          (sys_poll (fd priv) (cancel_fd env)) |}.
Proof.
  intros Hfd Hpolls Hr He. unfold g_socket_input_stream_read.
  rewrite (proj2 (Z.eqb_neq _ _) Hfd). simpl negb. cbv iota.
  rewrite Hpolls, poll_loop_interrupted by (intros [_ H]; by apply He).
  rewrite Hr. reflexivity.
Qed.

Lemma read_wait_failure_witness :
  cancel_fd env_wait_fails ≠ -1
  ∧ g_socket_input_stream_read EINTR_linux 0 stream_5 16 env_wait_fails
    = Some {| returned := -1;
              error := Some (G_IO_ERROR_from_errno ECONNRESET_linux
                               "Error reading from socket: ");
              syscalls := [sys_poll 5 9; sys_poll 5 9] |}.
Proof.
  assert (Hfd : cancel_fd env_wait_fails ≠ -1) by discriminate.
  split; [exact Hfd |].
  exact (read_wait_failure EINTR_linux 0 16 stream_5 env_wait_fails 1
           {| return_value := -1; errno := ECONNRESET_linux |} []
           Hfd eq_refl eq_refl ltac:(discriminate)).
Defined.

(** X11.  When the wait ends on an answer of [poll] other than [-1], the
    read goes on as without a wait: its result and error are those of
    the read loop, and its system calls are the polls, one more than
    there were interruptions, followed by those of the loop.  The value
    [poll] returned is not looked at beyond that. *)
Theorem read_wait_success
    (EINTR res count : Z) (priv : GSocketInputStreamPrivate)
    (env : environment) (k : nat) (p : syscall_answer)
    (rest : list syscall_answer) :
  cancel_fd env ≠ -1 →
  polls env = replicate k (interrupted EINTR) ++ p :: rest →
  return_value p ≠ -1 →
  g_socket_input_stream_read EINTR res priv count env
  = option_map
      (λ o, {| returned := returned o; error := error o;
               syscalls := replicate (S k)
                             (sys_poll (fd priv) (cancel_fd env))
                           ++ syscalls o |})
      (read_loop EINTR (fd priv) count res (iterations env)).
Proof.
  intros Hfd Hpolls Hr. unfold g_socket_input_stream_read.
  rewrite (proj2 (Z.eqb_neq _ _) Hfd). simpl negb. cbv iota.
  rewrite Hpolls, poll_loop_interrupted by (intros [H _]; by apply Hr).
  rewrite (proj2 (Z.eqb_neq _ _) Hr). reflexivity.
Qed.

Lemma read_wait_success_witness :
  cancel_fd env_wait_passes ≠ -1
  ∧ g_socket_input_stream_read EINTR_linux 0 stream_5 16 env_wait_passes
    = Some {| returned := 3; error := None;
              syscalls := [sys_poll 5 9; sys_poll 5 9; sys_read 5 16] |}.
Proof.
  assert (Hfd : cancel_fd env_wait_passes ≠ -1) by discriminate.
  split; [exact Hfd |].
  exact (read_wait_success EINTR_linux 0 16 stream_5 env_wait_passes 1
           {| return_value := 2; errno := 0 |} []
           Hfd eq_refl ltac:(discriminate)).
Defined.

(** How the returned value and the error of the read loop go together. *)
Lemma read_loop_consistent
    (EINTR fd count : Z) (turns : list iteration) :
  ∀ (res : Z) (o : outcome Z),
    read_loop EINTR fd count res turns = Some o →
    (error o = None →
     returned o ≠ -1
     ∧ ∃ a, read_answers a ∈ turns ∧ returned o = return_value a)
    ∧ (∀ e m, error o = Some (G_IO_ERROR_from_errno e m) →
              returned o = -1 ∧ e ≠ EINTR)
    ∧ (error o = Some G_IO_ERROR_CANCELLED →
       cancellation_fired ∈ turns ∧ (returned o = res ∨ returned o = -1)).
Proof.
  induction turns as [| [| a] rest IH]; intros res o H; simpl in H.
  - discriminate H.
  - inversion H; subst; simpl.
    split; [intros E; discriminate E |].
    split; [intros e m E; discriminate E |].
    intros _. split; [apply list_elem_of_here | by left].
  - destruct (return_value a =? -1) eqn:Hr.
    + destruct (errno a =? EINTR) eqn:He.
      * destruct (read_loop EINTR fd count (return_value a) rest)
          as [o' |] eqn:Hrest; [| discriminate H].
        inversion H; subst; simpl.
        destruct (IH _ _ Hrest) as (I1 & I2 & I3).
        split.
        { intros E. destruct (I1 E) as (Hne & b & Hb & Hv).
          split; [exact Hne |]. exists b.
          split; [by apply list_elem_of_further | exact Hv]. }
        split; [exact I2 |].
        intros E. destruct (I3 E) as [Hin Hv].
        split; [by apply list_elem_of_further |]. right.
        apply Z.eqb_eq in Hr. destruct Hv as [Hv | Hv]; congruence.
      * inversion H; subst; simpl.
        split; [intros E; discriminate E |].
        split; [| intros E; discriminate E].
        intros e m E. inversion E; subst.
        split; [by apply Z.eqb_eq | by apply Z.eqb_neq].
    + inversion H; subst; simpl.
      split.
      { intros _. split; [by apply Z.eqb_neq |]. exists a.
        split; [apply list_elem_of_here | reflexivity]. }
      split; [intros e m E; discriminate E | intros E; discriminate E].
Qed.

(** X12.  What a caller of [g_socket_input_stream_read] can rely on.  A
    call that sets no error returns the value of one of the reads, and
    that value is not [-1].  A call that sets an I/O error returns [-1],
    and the error never carries [EINTR].  A call that sets the Cancelled
    error found the cancellable cancelled and returns [-1] or what [res]
    held before its first assignment. *)
Theorem read_outcome_consistent
    (EINTR res count : Z) (priv : GSocketInputStreamPrivate)
    (env : environment) (o : outcome Z) :
  g_socket_input_stream_read EINTR res priv count env = Some o →
  (error o = None →
   returned o ≠ -1
   ∧ ∃ a, read_answers a ∈ iterations env ∧ returned o = return_value a)
  ∧ (∀ e m, error o = Some (G_IO_ERROR_from_errno e m) →
            returned o = -1 ∧ e ≠ EINTR)
  ∧ (error o = Some G_IO_ERROR_CANCELLED →
     cancellation_fired ∈ iterations env
     ∧ (returned o = res ∨ returned o = -1)).
Proof.
  intros H. unfold g_socket_input_stream_read in H.
  destruct (negb (cancel_fd env =? -1)).
  - destruct (poll_loop EINTR (fd priv) (cancel_fd env) (polls env))
      as [[p calls] |] eqn:Hp; [| discriminate H].
    pose proof (poll_loop_last_answer _ _ _ _ _ _ Hp) as Hlast.
    destruct (return_value p =? -1) eqn:Hr.
    + inversion H; subst; simpl.
      split; [intros E; discriminate E |].
      split; [| intros E; discriminate E].
      intros e m E. inversion E; subst. split; [reflexivity |].
      intros He. apply Hlast. split; [by apply Z.eqb_eq | exact He].
    + destruct (read_loop EINTR (fd priv) count res (iterations env))
        as [o' |] eqn:Hl; [| discriminate H].
      inversion H; subst; simpl.
      exact (read_loop_consistent _ _ _ _ _ _ Hl).
  - exact (read_loop_consistent _ _ _ _ _ _ H).
Qed.

Lemma read_outcome_consistent_witness :
  g_socket_input_stream_read EINTR_linux 0 stream_5 16 env_read_fails
  = Some {| returned := -1;
            error := Some (G_IO_ERROR_from_errno ECONNRESET_linux
                             "Error reading from socket: ");
            syscalls := [sys_read 5 16; sys_read 5 16] |}
  ∧ ECONNRESET_linux ≠ EINTR_linux.
Proof.
  assert (H : g_socket_input_stream_read EINTR_linux 0 stream_5 16
                env_read_fails
              = Some {| returned := -1;
                        error := Some (G_IO_ERROR_from_errno ECONNRESET_linux
                                         "Error reading from socket: ");
                        syscalls := [sys_read 5 16; sys_read 5 16] |})
    by reflexivity.
  split; [exact H |].
  exact (proj2 (proj1 (proj2 (read_outcome_consistent _ _ _ _ _ _ H))
                  _ _ eq_refl)).
Defined.

Lemma poll_loop_syscalls
    (EINTR stream_fd cancel_fd : Z) (answers : list syscall_answer) :
  ∀ (a : syscall_answer) (calls : list syscall),
    poll_loop EINTR stream_fd cancel_fd answers = Some (a, calls) →
    ∃ j, calls = replicate j (sys_poll stream_fd cancel_fd)
         ∧ (1 ≤ j ≤ length answers)%nat.
Proof.
  induction answers as [| b rest IH]; intros a calls H; simpl in H.
  - discriminate H.
  - destruct ((return_value b =? -1) && (errno b =? EINTR)).
    + destruct (poll_loop EINTR stream_fd cancel_fd rest)
        as [[c calls'] |] eqn:Hrest; [| discriminate H].
      inversion H; subst.
      destruct (IH _ _ eq_refl) as (j & -> & Hj).
      exists (S j). split; [reflexivity | simpl; lia].
    + inversion H; subst. exists 1%nat. split; [reflexivity | simpl; lia].
Qed.

Lemma read_loop_syscalls
    (EINTR fd count : Z) (turns : list iteration) :
  ∀ (res : Z) (o : outcome Z),
    read_loop EINTR fd count res turns = Some o →
    ∃ k, syscalls o = replicate k (sys_read fd count)
         ∧ (k ≤ length turns)%nat
         ∧ (error o ≠ Some G_IO_ERROR_CANCELLED → (1 ≤ k)%nat).
Proof.
  induction turns as [| [| a] rest IH]; intros res o H; simpl in H.
  - discriminate H.
  - inversion H; subst; simpl. exists 0%nat.
    split; [reflexivity | split; [lia |]]. intros E. by destruct E.
  - destruct (return_value a =? -1).
    + destruct (errno a =? EINTR).
      * destruct (read_loop EINTR fd count (return_value a) rest)
          as [o' |] eqn:Hrest; [| discriminate H].
        inversion H; subst; simpl.
        destruct (IH _ _ Hrest) as (k & -> & Hk & _).
        exists (S k). split; [reflexivity | split; lia].
      * inversion H; subst; simpl. exists 1%nat.
        split; [reflexivity | split; lia].
    + inversion H; subst; simpl. exists 1%nat.
      split; [reflexivity | split; lia].
Qed.

(** X13.  The system calls of one [g_socket_input_stream_read]: first
    the polls on the stream's descriptor and the cancellable's, none when
    the cancellable has no descriptor and at least one otherwise; then
    the reads, all on the stream's descriptor with the caller's count, at
    least one unless the call ends as cancelled.  It never closes a
    descriptor. *)
Theorem read_syscalls_shape
    (EINTR res count : Z) (priv : GSocketInputStreamPrivate)
    (env : environment) (o : outcome Z) :
  g_socket_input_stream_read EINTR res priv count env = Some o →
  ∃ j k,
    syscalls o
    = replicate j (sys_poll (fd priv) (cancel_fd env))
      ++ replicate k (sys_read (fd priv) count)
    ∧ (j ≤ length (polls env))%nat
    ∧ (k ≤ length (iterations env))%nat
    ∧ (cancel_fd env = -1 → j = 0%nat)
    ∧ (cancel_fd env ≠ -1 → (1 ≤ j)%nat)
    ∧ (error o = None → (1 ≤ k)%nat)
    ∧ Forall (λ c, ∀ d, c ≠ sys_close d) (syscalls o).
Proof.
  intros H.
  assert (Hshape : ∃ j k,
    syscalls o
    = replicate j (sys_poll (fd priv) (cancel_fd env))
      ++ replicate k (sys_read (fd priv) count)
    ∧ (j ≤ length (polls env))%nat
    ∧ (k ≤ length (iterations env))%nat
    ∧ (cancel_fd env = -1 → j = 0%nat)
    ∧ (cancel_fd env ≠ -1 → (1 ≤ j)%nat)
    ∧ (error o = None → (1 ≤ k)%nat)).
  { unfold g_socket_input_stream_read in H.
    destruct (Z.eqb_spec (cancel_fd env) (-1)) as [Hfd | Hfd]; simpl in H.
    - destruct (read_loop_syscalls _ _ _ _ _ _ H) as (k & Hk & Hkl & Hk1).
      exists 0%nat, k. simpl.
      split; [exact Hk |]. split; [lia |]. split; [exact Hkl |].
      split; [reflexivity |]. split; [intros Hn; by destruct Hn |].
      intros E. apply Hk1. rewrite E. discriminate.
    - destruct (poll_loop EINTR (fd priv) (cancel_fd env) (polls env))
        as [[p calls] |] eqn:Hp; [| discriminate H].
      destruct (poll_loop_syscalls _ _ _ _ _ _ Hp) as (j & -> & Hj).
      destruct (return_value p =? -1).
      + inversion H; subst; simpl. exists j, 0%nat. simpl.
        rewrite app_nil_r.
        split; [reflexivity |]. split; [lia |]. split; [lia |].
        split; [intros E; by destruct Hfd |]. split; [intros _; lia |].
        intros E; discriminate E.
      + destruct (read_loop EINTR (fd priv) count res (iterations env))
          as [o' |] eqn:Hl; [| discriminate H].
        inversion H; subst; simpl.
        destruct (read_loop_syscalls _ _ _ _ _ _ Hl) as (k & -> & Hkl & Hk1).
        exists j, k.
        split; [reflexivity |]. split; [lia |]. split; [exact Hkl |].
        split; [intros E; by destruct Hfd |]. split; [intros _; lia |].
        intros E. apply Hk1. rewrite E. discriminate. }
  destruct Hshape as (j & k & Hs & H1 & H2 & H3 & H4 & H5).
  exists j, k. repeat (split; [assumption |]).
  rewrite Hs. apply Forall_app. split.
  - apply Forall_forall. intros c Hc d.
    apply elem_of_replicate in Hc as [-> _]. discriminate.
  - apply Forall_forall. intros c Hc d.
    apply elem_of_replicate in Hc as [-> _]. discriminate.
Qed.

Lemma read_syscalls_shape_witness :
  g_socket_input_stream_read EINTR_linux 0 stream_5 16 env_wait_passes
  = Some {| returned := 3; error := None;
            syscalls := [sys_poll 5 9; sys_poll 5 9; sys_read 5 16] |}
  ∧ ∃ j k,
      [sys_poll 5 9; sys_poll 5 9; sys_read 5 16]
      = replicate j (sys_poll 5 9) ++ replicate k (sys_read 5 16)
      ∧ (j ≤ 2)%nat ∧ (k ≤ 1)%nat.
Proof.
  assert (H : g_socket_input_stream_read EINTR_linux 0 stream_5 16
                env_wait_passes
              = Some {| returned := 3; error := None;
                        syscalls := [sys_poll 5 9; sys_poll 5 9;
                                     sys_read 5 16] |})
    by reflexivity.
  split; [exact H |].
  destruct (read_syscalls_shape _ _ _ _ _ _ H)
    as (j & k & Hs & Hj & Hk & _).
  exists j, k. split; [exact Hs | split; [exact Hj | exact Hk]].
Defined.

(** *** The two read loops *)

Lemma read_async_cb_loop_eq (EINTR fd count : Z) (turns : list iteration) :
  read_async_cb_loop EINTR fd count turns
  = read_loop EINTR fd count (-1) turns.
Proof.
  induction turns as [| [| a] rest IH]; simpl; [reflexivity .. |].
  destruct (Z.eqb_spec (return_value a) (-1)) as [Hr | Hr]; [| reflexivity].
  destruct (errno a =? EINTR); [| reflexivity].
  rewrite IH, Hr. reflexivity.
Qed.

(** X14.  The loop of [read_async_cb] is the loop of the synchronous
    read entered with [-1] in [res].  For any other content of [res] the
    two still set the same error and make the same system calls, and
    they return the same value whenever the first thing that happens is
    a read and not the cancellation. *)
Theorem read_loops_agree
    (EINTR fd count res : Z) (turns : list iteration) :
  read_async_cb_loop EINTR fd count turns
  = read_loop EINTR fd count (-1) turns
  ∧ option_map error (read_loop EINTR fd count res turns)
    = option_map error (read_async_cb_loop EINTR fd count turns)
  ∧ option_map syscalls (read_loop EINTR fd count res turns)
    = option_map syscalls (read_async_cb_loop EINTR fd count turns)
  ∧ (∀ a rest, turns = read_answers a :: rest →
               read_loop EINTR fd count res turns
               = read_async_cb_loop EINTR fd count turns).
Proof.
  assert (Hread : ∀ a rest,
            read_loop EINTR fd count res (read_answers a :: rest)
            = read_async_cb_loop EINTR fd count (read_answers a :: rest)).
  { intros a rest. simpl.
    destruct (Z.eqb_spec (return_value a) (-1)) as [Hr | Hr]; [| reflexivity].
    destruct (errno a =? EINTR); [| reflexivity].
    rewrite read_async_cb_loop_eq, Hr. reflexivity. }
  split; [apply read_async_cb_loop_eq |].
  destruct turns as [| [| a] rest].
  - split; [reflexivity | split; [reflexivity |]].
    intros a rest H; discriminate H.
  - split; [reflexivity | split; [reflexivity |]].
    intros a rest' H; discriminate H.
  - rewrite (Hread a rest).
    split; [reflexivity | split; [reflexivity |]].
    intros a' rest' _. reflexivity.
Qed.

(** *** More about close *)

(** X15.  On a stream that owns its descriptor,
    [g_socket_input_stream_close] calls [close] on it exactly once.  It
    returns [TRUE] exactly when [close] did not return [-1], and sets an
    error, made from [errno], exactly when it returns [FALSE].  Unlike
    the read, it does not try again after an interruption by a signal:
    that is reported as an error carrying [EINTR]. *)
Theorem close_owned_once
    (priv : GSocketInputStreamPrivate) (a : syscall_answer) :
  close_fd_at_close priv = true →
  syscalls (g_socket_input_stream_close priv a).1 = [sys_close (fd priv)]
  ∧ (g_socket_input_stream_close priv a).2 = priv
  ∧ (returned (g_socket_input_stream_close priv a).1 = true ↔
     return_value a ≠ -1)
  ∧ (returned (g_socket_input_stream_close priv a).1 = true ↔
     error (g_socket_input_stream_close priv a).1 = None)
  ∧ (return_value a = -1 →
     error (g_socket_input_stream_close priv a).1
     = Some (G_IO_ERROR_from_errno (errno a) "Error closing socket: "))
  ∧ (∀ EINTR,
       (g_socket_input_stream_close priv (interrupted EINTR)).1
       = {| returned := false;
            error := Some (G_IO_ERROR_from_errno EINTR
                             "Error closing socket: ");
            syscalls := [sys_close (fd priv)] |}).
Proof.
  intros H. unfold g_socket_input_stream_close. rewrite H. simpl.
  split; [reflexivity | split; [reflexivity |]].
  destruct (Z.eqb_spec (return_value a) (-1)) as [Hr | Hr]; simpl.
  - split; [split; [intros E; discriminate E | intros E; by destruct E] |].
    split; [split; intros E; discriminate E |].
    split; [reflexivity | reflexivity].
  - split; [split; [intros _; exact Hr | reflexivity] |].
    split; [split; reflexivity |].
    split; [intros E; by destruct Hr | reflexivity].
Qed.

Lemma close_owned_once_witness :
  close_fd_at_close stream_6_owned = true
  ∧ g_socket_input_stream_close stream_6_owned
      {| return_value := -1; errno := ECONNRESET_linux |}
    = ({| returned := false;
          error := Some (G_IO_ERROR_from_errno ECONNRESET_linux
                           "Error closing socket: ");
          syscalls := [sys_close 6] |}, stream_6_owned)
  ∧ syscalls (g_socket_input_stream_close stream_6_owned
                {| return_value := -1; errno := ECONNRESET_linux |}).1
    = [sys_close 6].
Proof.
  split; [reflexivity | split; [reflexivity |]].
  exact (proj1 (close_owned_once stream_6_owned
                  {| return_value := -1; errno := ECONNRESET_linux |}
                  eq_refl)).
Defined.

(** X16.  The stream keeps no record of having been closed.  On a stream
    that owns its descriptor every call of a run of closes calls [close]
    again on the same descriptor, whatever the earlier calls returned,
    and the stream's fields never change. *)
Theorem close_owned_repeats
    (priv : GSocketInputStreamPrivate) (answers : list syscall_answer) :
  close_fd_at_close priv = true →
  all_syscalls (close_repeatedly priv answers).1
  = replicate (length answers) (sys_close (fd priv))
  ∧ (close_repeatedly priv answers).2 = priv
  ∧ length (close_repeatedly priv answers).1 = length answers.
Proof.
  intros H. induction answers as [| a rest (I1 & I2 & I3)];
    [by repeat split |].
  simpl close_repeatedly.
  assert (Hc : g_socket_input_stream_close priv a
               = ((g_socket_input_stream_close priv a).1, priv)).
  { unfold g_socket_input_stream_close. rewrite H. reflexivity. }
  rewrite Hc.
  destruct (close_repeatedly priv rest) as [os priv''] eqn:Hrest.
  simpl in *. subst priv''.
  split; [| split; [reflexivity | by rewrite I3]].
  unfold all_syscalls in *. simpl. rewrite I1.
  unfold g_socket_input_stream_close. rewrite H. reflexivity.
Qed.

Lemma close_owned_repeats_witness :
  close_fd_at_close stream_6_owned = true
  ∧ all_syscalls
      (close_repeatedly stream_6_owned
         [ {| return_value := 0; errno := 0 |};
           {| return_value := -1; errno := 9 |} ]).1
    = [sys_close 6; sys_close 6].
Proof.
  split; [reflexivity |].
  exact (proj1 (close_owned_repeats stream_6_owned
                  [ {| return_value := 0; errno := 0 |};
                    {| return_value := -1; errno := 9 |} ] eq_refl)).
Defined.

(** *** The asynchronous operations *)

Lemma read_loop_error_minus_one
    (EINTR fd count : Z) (turns : list iteration) (o : outcome Z) :
  read_loop EINTR fd count (-1) turns = Some o →
  (returned o =? -1) = false → error o = None.
Proof.
  intros H Hr. apply Z.eqb_neq in Hr.
  destruct (read_loop_consistent _ _ _ _ _ _ H) as (_ & I2 & I3).
  destruct (error o) as [[| e m] |] eqn:E; [| | reflexivity].
  - destruct (I3 eq_refl) as [_ [Hv | Hv]]; by destruct Hr.
  - destruct (I2 e m eq_refl) as [Hv _]. by destruct Hr.
Qed.

(** X17.  An asynchronous read, from [g_socket_input_stream_read_async]
    through [read_async_cb] to [g_socket_input_stream_read_finish].  The
    source waits on the stream's descriptor; the callback reads from that
    descriptor with the count given at the start, completes once, with
    the callback and user data given at the start, and tells the main
    loop not to call it again.  The result it completes with is tagged
    as a read, so the finish accepts it, and what the finish returns and
    the error in the result are what the synchronous loop gives when it
    is entered with [-1]. *)
Theorem read_async_round_trip
    (EINTR count : Z) (priv : GSocketInputStreamPrivate)
    (callback user_data : positive) (turns : list iteration)
    (r : bool) (c : completion) (calls : list syscall) :
  read_async_cb EINTR
    (source_data (g_socket_input_stream_read_async priv count
                    callback user_data)) turns
  = Some (r, c, calls) →
  r = false
  ∧ source_fd (g_socket_input_stream_read_async priv count
                 callback user_data) = fd priv
  ∧ completed_callback c = callback
  ∧ completed_user_data c = user_data
  ∧ source_object (completed_result c) = priv
  ∧ ∃ o, read_loop EINTR (fd priv) count (-1) turns = Some o
         ∧ g_socket_input_stream_read_finish (completed_result c)
           = Some (returned o)
         ∧ simple_error (completed_result c) = error o
         ∧ calls = syscalls o.
Proof.
  unfold read_async_cb. simpl. rewrite read_async_cb_loop_eq.
  destruct (read_loop EINTR (fd priv) count (-1) turns) as [o |] eqn:Hl;
    [| intros H; discriminate H].
  intros H. inversion H; subst; clear H. simpl.
  do 4 (split; [reflexivity |]).
  destruct (returned o =? -1) eqn:Hr; simpl.
  - split; [reflexivity |]. exists o. by repeat split.
  - split; [reflexivity |]. exists o.
    rewrite (read_loop_error_minus_one _ _ _ _ _ Hl Hr). by repeat split.
Qed.

Lemma read_async_round_trip_witness :
  read_async_cb EINTR_linux
    (source_data (g_socket_input_stream_read_async stream_5 4 11 12))
    [ read_answers (interrupted EINTR_linux);
      read_answers {| return_value := 4; errno := 0 |} ]
  = Some (false,
          {| completed_callback := 11; completed_user_data := 12;
             completed_result :=
               {| source_object := stream_5;
                  source_tag_of := g_socket_input_stream_read_async_tag;
                  op_res_gssize := 4; simple_error := None |} |},
          [sys_read 5 4; sys_read 5 4])
  ∧ source_fd (g_socket_input_stream_read_async stream_5 4 11 12) = 5.
Proof.
  assert (H : read_async_cb EINTR_linux
                (source_data (g_socket_input_stream_read_async stream_5 4
                                11 12))
                [ read_answers (interrupted EINTR_linux);
                  read_answers {| return_value := 4; errno := 0 |} ]
              = Some (false,
                      {| completed_callback := 11; completed_user_data := 12;
                         completed_result :=
                           {| source_object := stream_5;
                              source_tag_of :=
                                g_socket_input_stream_read_async_tag;
                              op_res_gssize := 4; simple_error := None |} |},
                      [sys_read 5 4; sys_read 5 4])) by reflexivity.
  split; [exact H |].
  exact (proj1 (proj2 (read_async_round_trip _ _ _ _ _ _ _ _ _ H))).
Defined.

(** X18.  An asynchronous close.  [close_async_cb] makes the system
    calls of the synchronous close, none on a stream that does not own
    its descriptor, and completes once with a result tagged as a close,
    which holds an error exactly when the synchronous close sets one; it
    tells the main loop not to call it again.
    [g_socket_input_stream_close_finish] returns [TRUE] for that result
    even when it holds an error, and
    [g_socket_input_stream_read_finish] does not accept it. *)
Theorem close_async_round_trip
    (priv : GSocketInputStreamPrivate) (callback user_data : positive)
    (a : syscall_answer) :
  (close_async_cb
     (g_socket_input_stream_close_async priv callback user_data) a).1.1
  = false
  ∧ (close_async_cb
       (g_socket_input_stream_close_async priv callback user_data) a).2
    = syscalls (g_socket_input_stream_close priv a).1
  ∧ ∃ c, (close_async_cb
            (g_socket_input_stream_close_async priv callback user_data) a).1.2
         = c
         ∧ completed_callback c = callback
         ∧ completed_user_data c = user_data
         ∧ source_object (completed_result c) = priv
         ∧ source_tag_of (completed_result c)
           = g_socket_input_stream_close_async_tag
         ∧ simple_error (completed_result c)
           = error (g_socket_input_stream_close priv a).1
         ∧ g_socket_input_stream_close_finish (completed_result c) = true
         ∧ g_socket_input_stream_read_finish (completed_result c) = None
         ∧ (close_fd_at_close priv = true → return_value a = -1 →
            simple_error (completed_result c)
            = Some (G_IO_ERROR_from_errno (errno a)
                      "Error closing socket: ")).
Proof.
  unfold close_async_cb, g_socket_input_stream_close. simpl.
  destruct (close_fd_at_close priv); simpl.
  - destruct (Z.eqb_spec (return_value a) (-1)) as [Hr | Hr]; simpl.
    + split; [reflexivity | split; [reflexivity |]].
      eexists. split; [reflexivity |]. simpl. by repeat split.
    + split; [reflexivity | split; [reflexivity |]].
      eexists. split; [reflexivity |]. simpl.
      repeat (split; [reflexivity |]). intros _ E. by destruct Hr.
  - split; [reflexivity | split; [reflexivity |]].
    eexists. split; [reflexivity |]. simpl.
    repeat (split; [reflexivity |]). intros E; discriminate E.
Qed.

End SocketInputStreamSpec.
